(** * The tenant bucket store (tenant/storage_bucket.go)

    A shallow embedding of the bucket store of the [tenant] package: the
    key builder, the uniqueness probe, the reads [GetBucket] and
    [GetBucketByName], the two list scans and the three writes
    [CreateBucket], [UpdateBucket] and [DeleteBucket], over a model of
    the key-value transaction they are handed.

    Byte slices and Go strings are [string]s (one [ascii] per byte).
    The transaction is passed explicitly: every operation that writes
    returns the transaction it leaves behind, also when it fails. *)

From Stdlib Require Import ZArith NArith Ascii String List Bool.
From stdpp Require Import gmap strings list fin_maps sorting.

Open Scope string_scope.

(** ** Results and errors *)

Inductive Result (A E : Type) : Type :=
| Ok (a : A)
| Err (e : E).
Arguments Ok {A E} a.
Arguments Err {A E} e.

(** The error values of the package, one constructor per error the source
    names.  The spec's kinds: NotFound is [ErrBucketNotFound],
    NotFoundByName is [ErrBucketNotFoundByName], AlreadyExists is
    [BucketAlreadyExistsError], NameNotUnique is [ErrBucketNameNotUnique],
    InvalidRequest is [invalidBucketListRequest] (bad filter) and
    [ErrNameisEmpty] (empty name), Forbidden is [errRenameSystemBucket],
    Internal is [ErrInternalServiceError]. *)
Inductive Error : Type :=
| ErrInvalidID                              (* influxdb.ErrInvalidID *)
| ErrInvalidIDLength                        (* influxdb.ErrInvalidIDLength *)
| ErrKeyNotFound                            (* kv.ErrKeyNotFound *)
| ErrStorage (n : nat)                      (* any other error of the kv engine *)
| ErrJSON                                   (* an error of encoding/json *)
| ErrFailureGeneratingID                    (* the identifier generator gave up *)
| EInvalidError (cause : Error)             (* &influxdb.Error{Code: EInvalid, Err: cause} *)
| WrappedError (cause : Error)              (* &influxdb.Error{Err: cause} *)
| ErrNameisEmpty
| BucketAlreadyExistsError (uname : string)
| ErrInternalServiceError (cause : Error)
| ErrCorruptBucket (cause : Error)
| ErrUnprocessableBucket (cause : Error)
| InvalidOrgIDError (cause : Error)
| ErrBucketNotFound
| ErrBucketNotFoundByName (n : string)
| invalidBucketListRequest
| errRenameSystemBucket
| ErrBucketNameNotUnique.

(** kv.IsNotFound *)
Definition IsNotFound (err : Error) : bool :=
  match err with
  | ErrKeyNotFound => true
  | _ => false
  end.

(** ** Identifiers *)

(** Modelled from the spec: influxdb.ID and its methods Valid, Encode and
    Decode (id.go is not among the sources).  An identifier is a 64-bit
    unsigned number, zero being the invalid identifier; it encodes to a
    fixed-width sequence of [IDLength] bytes, sixteen hexadecimal digits,
    most significant first.  Decoding rejects every input that is not of
    that width, not hexadecimal, or the encoding of zero.  Numbers of [N]
    outside the 64-bit range are no identifiers of the program: [Valid]
    rejects them with the zero identifier. *)
Definition ID := N.

Definition IDLength : nat := 16.

Definition Valid (i : ID) : bool := (0 <? i)%N && (i <? 2 ^ 64)%N.

Definition hexDigit (d : N) : ascii :=
  match d with
  | 0 => "0" | 1 => "1" | 2 => "2" | 3 => "3" | 4 => "4" | 5 => "5"
  | 6 => "6" | 7 => "7" | 8 => "8" | 9 => "9" | 10 => "a" | 11 => "b"
  | 12 => "c" | 13 => "d" | 14 => "e" | _ => "f"
  end%N%char.

Definition hexVal (c : ascii) : option N :=
  let n := N_of_ascii c in
  if (48 <=? n)%N && (n <=? 57)%N then Some (n - 48)%N
  else if (97 <=? n)%N && (n <=? 102)%N then Some (n - 87)%N
  else if (65 <=? n)%N && (n <=? 70)%N then Some (n - 55)%N
  else None.

(** [w] hexadecimal digits of [n], most significant first, in front of [acc]. *)
Fixpoint hexEncode (w : nat) (n : N) (acc : string) : string :=
  match w with
  | O => acc
  | S w' => hexEncode w' (n / 16)%N (String (hexDigit (n mod 16)%N) acc)
  end.

Fixpoint hexParse (s : string) (acc : N) : option N :=
  match s with
  | EmptyString => Some acc
  | String c s' =>
      match hexVal c with
      | Some d => hexParse s' (acc * 16 + d)%N
      | None => None
      end
  end.

Definition Encode (i : ID) : Result string Error :=
  if Valid i then Ok (hexEncode IDLength i "") else Err ErrInvalidID.

Definition Decode (b : string) : Result ID Error :=
  if negb (Nat.eqb (String.length b) IDLength) then Err ErrInvalidIDLength
  else match hexParse b 0%N with
       | None => Err ErrInvalidID
       | Some res => if Valid res then Ok res else Err ErrInvalidID
       end.

(** ** The key builder *)

(** bucketIndexKey: the encoded organization identifier followed by the
    bytes of the name. *)
Definition bucketIndexKey (o : ID) (name : string) : Result string Error :=
  match Encode o with
  | Err err => Err (EInvalidError err)
  | Ok orgID => Ok (orgID ++ name)
  end.

(** ** Buckets *)

Inductive BucketType : Type := BucketTypeUser | BucketTypeSystem.

(** Instants (time.Time) and durations (time.Duration) are integers; the
    zero instant is the zero value of time.Time. *)
Definition Time := Z.
Definition Duration := Z.

(** Modelled from the spec: influxdb.Bucket, with the fields of section 3
    (the declaration is not among the sources). *)
Record Bucket : Type := mkBucket {
  b_ID : ID;
  b_OrgID : ID;
  b_Type : BucketType;
  b_Name : string;
  b_Description : string;
  b_RetentionPeriod : Duration;
  b_CreatedAt : Time;
  b_UpdatedAt : Time
}.

Definition setID (b : Bucket) (id : ID) : Bucket :=
  mkBucket id (b_OrgID b) (b_Type b) (b_Name b) (b_Description b)
           (b_RetentionPeriod b) (b_CreatedAt b) (b_UpdatedAt b).

Definition setName (b : Bucket) (n : string) : Bucket :=
  mkBucket (b_ID b) (b_OrgID b) (b_Type b) n (b_Description b)
           (b_RetentionPeriod b) (b_CreatedAt b) (b_UpdatedAt b).

Definition setDescription (b : Bucket) (d : string) : Bucket :=
  mkBucket (b_ID b) (b_OrgID b) (b_Type b) (b_Name b) d
           (b_RetentionPeriod b) (b_CreatedAt b) (b_UpdatedAt b).

Definition setRetentionPeriod (b : Bucket) (r : Duration) : Bucket :=
  mkBucket (b_ID b) (b_OrgID b) (b_Type b) (b_Name b) (b_Description b)
           r (b_CreatedAt b) (b_UpdatedAt b).

Definition SetCreatedAt (b : Bucket) (now : Time) : Bucket :=
  mkBucket (b_ID b) (b_OrgID b) (b_Type b) (b_Name b) (b_Description b)
           (b_RetentionPeriod b) now (b_UpdatedAt b).

Definition SetUpdatedAt (b : Bucket) (now : Time) : Bucket :=
  mkBucket (b_ID b) (b_OrgID b) (b_Type b) (b_Name b) (b_Description b)
           (b_RetentionPeriod b) (b_CreatedAt b) now.

(** influxdb.BucketUpdate: a nil pointer is [None]. *)
Record BucketUpdate : Type := mkBucketUpdate {
  upd_Name : option string;
  upd_Description : option string;
  upd_RetentionPeriod : option Duration
}.

Record BucketFilter : Type := mkBucketFilter {
  f_Name : option string;
  f_OrganizationID : option ID
}.

(** influxdb.FindOptions; Limit and Offset are Go ints. *)
Record FindOptions : Type := mkFindOptions {
  Limit : Z;
  Offset : Z;
  Descending : bool
}.

(** ** The key-value transaction *)

(** The two sub-containers the store uses, by the package variables naming
    them ("bucketsv1" and "bucketindexv1"). *)
Inductive BucketName : Type := bucketBucket | bucketIndex.

(** The calls the store makes on the engine. *)
Inductive kvOp : Type :=
| OpBucket (b : BucketName)
| OpGet (b : BucketName) (k : string)
| OpPut (b : BucketName) (k : string)
| OpDelete (b : BucketName) (k : string)
| OpCursor (b : BucketName)
| OpCursorErr (b : BucketName).

(** Modelled from the spec: kv.Tx and kv.Bucket (the kv package is not among
    the sources).  A transaction holds the two flat keyspaces and, for the
    failures of the engine, which of its calls fail: [tx_fault op = Some n]
    makes the call [op] return the engine error [ErrStorage n], which is
    never the not-found error. *)
Record Tx : Type := mkTx {
  tx_buckets : gmap string string;
  tx_index : gmap string string;
  tx_fault : kvOp -> option nat
}.

Definition table (tx : Tx) (b : BucketName) : gmap string string :=
  match b with
  | bucketBucket => tx_buckets tx
  | bucketIndex => tx_index tx
  end.

Definition setTable (tx : Tx) (b : BucketName) (m : gmap string string) : Tx :=
  match b with
  | bucketBucket => mkTx m (tx_index tx) (tx_fault tx)
  | bucketIndex => mkTx (tx_buckets tx) m (tx_fault tx)
  end.

(** tx.Bucket(name) *)
Definition tx_Bucket (tx : Tx) (b : BucketName) : Result BucketName Error :=
  match tx_fault tx (OpBucket b) with
  | Some n => Err (ErrStorage n)
  | None => Ok b
  end.

Definition kv_Get (tx : Tx) (b : BucketName) (k : string) : Result string Error :=
  match tx_fault tx (OpGet b k) with
  | Some n => Err (ErrStorage n)
  | None =>
      match table tx b !! k with
      | Some v => Ok v
      | None => Err ErrKeyNotFound
      end
  end.

Definition kv_Put (tx : Tx) (b : BucketName) (k v : string) : Tx * option Error :=
  match tx_fault tx (OpPut b k) with
  | Some n => (tx, Some (ErrStorage n))
  | None => (setTable tx b (<[k := v]> (table tx b)), None)
  end.

Definition kv_Delete (tx : Tx) (b : BucketName) (k : string) : Tx * option Error :=
  match tx_fault tx (OpDelete b k) with
  | Some n => (tx, Some (ErrStorage n))
  | None => (setTable tx b (delete k (table tx b)), None)
  end.

Inductive CursorDirection : Type := CursorAscending | CursorDescending.

Definition entry_le (x y : string * string) : Prop :=
  String.leb (fst x) (fst y) = true.

#[global] Instance entry_le_dec (x y : string * string) : Decision (entry_le x y) :=
  bool_dec (String.leb (fst x) (fst y)) true.

(** The entries of a keyspace in ascending byte order of their keys. *)
Definition sortedEntries (m : gmap string string) : list (string * string) :=
  merge_sort entry_le (map_to_list m).

Fixpoint takeWhile {A : Type} (f : A -> bool) (l : list A) : list A :=
  match l with
  | [] => []
  | x :: l' => if f x then x :: takeWhile f l' else []
  end.

Fixpoint dropWhile {A : Type} (f : A -> bool) (l : list A) : list A :=
  match l with
  | [] => []
  | x :: l' => if f x then dropWhile f l' else l
  end.

(** Modelled from the spec: kv.Bucket.ForwardCursor(seek, direction, prefix).
    The cursor is the sequence of entries its Next calls return: from the
    seek key on in the direction asked for (a nil seek, the empty string,
    starts at the end the direction begins with), up to the first key that
    lacks the prefix. *)
Definition ForwardCursor (tx : Tx) (b : BucketName) (seek : string)
    (dir : CursorDirection) (prefix : option string)
  : Result (list (string * string)) Error :=
  match tx_fault tx (OpCursor b) with
  | Some n => Err (ErrStorage n)
  | None =>
      let es := sortedEntries (table tx b) in
      let from :=
        match dir with
        | CursorAscending => dropWhile (fun e => String.ltb (fst e) seek) es
        | CursorDescending =>
            dropWhile (fun e => negb (String.eqb seek "") && String.ltb seek (fst e))
                      (rev es)
        end in
      Ok match prefix with
         | None => from
         | Some p => takeWhile (fun e => String.prefix p (fst e)) from
         end
  end.

(** cursor.Err() *)
Definition cursor_Err (tx : Tx) (b : BucketName) : option Error :=
  match tx_fault tx (OpCursorErr b) with
  | Some n => Some (ErrStorage n)
  | None => None
  end.

(** ** What the store takes from outside the file *)

(** The constants of the influxdb package the file names, the JSON codec of
    encoding/json on influxdb.Bucket, and the store's identifier generator
    generateSafeID (storage.go): none of them is among the sources, so the
    store is embedded over any choice of them. *)
Class Env : Type := mkEnv {
  TasksSystemBucketName : string;
  TasksSystemBucketID : ID;
  TasksSystemBucketRetention : Duration;
  MonitoringSystemBucketName : string;
  MonitoringSystemBucketID : ID;
  MonitoringSystemBucketRetention : Duration;
  DefaultPageSize : Z;
  MaxPageSize : Z;
  json_Marshal : Bucket -> option string;
  json_Unmarshal : string -> option Bucket;
  generateSafeID : Tx -> BucketName -> Result ID Error
}.

(** ** The store *)

Section Store.
Context `{Env}.

(** uniqueBucketName ensures this bucket is unique for this organization;
    [None] is the nil error. *)
Definition uniqueBucketName (tx : Tx) (oid : ID) (uname : string) : option Error :=
  match bucketIndexKey oid uname with
  | Err err => Some err
  | Ok key =>
      if Nat.eqb (String.length key) 0 then Some ErrNameisEmpty
      else
        match tx_Bucket tx bucketIndex with
        | Err err => Some err
        | Ok idx =>
            match kv_Get tx idx key with
            | Err err =>
                (* if not found then this is unique; any other error is
                   some sort of internal server error *)
                if IsNotFound err then None
                else Some (ErrInternalServiceError err)
            | Ok _ => Some (BucketAlreadyExistsError uname)
            end
        end
  end.

Definition unmarshalBucket (v : string) : Result Bucket Error :=
  match json_Unmarshal v with
  | None => Err (ErrCorruptBucket ErrJSON)
  | Some u => Ok u
  end.

Definition marshalBucket (u : Bucket) : Result string Error :=
  match json_Marshal u with
  | None => Err (ErrUnprocessableBucket ErrJSON)
  | Some v => Ok v
  end.

Definition GetBucket (tx : Tx) (id : ID) : Result Bucket Error :=
  match Encode id with
  | Err err => Err (InvalidOrgIDError err)
  | Ok encodedID =>
      match tx_Bucket tx bucketBucket with
      | Err err => Err err
      | Ok b =>
          match kv_Get tx b encodedID with
          | Err err =>
              if IsNotFound err then Err ErrBucketNotFound
              else Err (ErrInternalServiceError err)
          | Ok v => unmarshalBucket v
          end
      end
  end.

Definition GetBucketByName (tx : Tx) (orgID : ID) (n : string) : Result Bucket Error :=
  match bucketIndexKey orgID n with
  | Err err => Err (EInvalidError err)
  | Ok key =>
      match tx_Bucket tx bucketIndex with
      | Err err => Err err
      | Ok idx =>
          match kv_Get tx idx key with
          | Err err =>
              (* allow for hard coded bucket names that dont exist in the system *)
              if IsNotFound err then
                if String.eqb n TasksSystemBucketName then
                  Ok (mkBucket TasksSystemBucketID orgID BucketTypeSystem
                               TasksSystemBucketName "System bucket for task logs"
                               TasksSystemBucketRetention 0%Z 0%Z)
                else if String.eqb n MonitoringSystemBucketName then
                  Ok (mkBucket MonitoringSystemBucketID orgID BucketTypeSystem
                               MonitoringSystemBucketName
                               "System bucket for monitoring logs"
                               MonitoringSystemBucketRetention 0%Z 0%Z)
                else Err (ErrBucketNotFoundByName n)
              else Err err
          | Ok buf =>
              match Decode buf with
              | Err err => Err (WrappedError err)
              | Ok id => GetBucket tx id
              end
          end
      end
  end.

(** The loop of listBucketsByOrg over the entries the cursor yields; [Err]
    is the early return from inside the loop, [Ok] the slice collected when
    the loop ends or breaks.  The test of [err] at the head of the loop body
    reads the error of opening the cursor, which is nil once the loop is
    reached: it never returns and has no counterpart here. *)
Fixpoint listBucketsByOrg_loop (tx : Tx) (o : FindOptions)
    (es : list (string * string)) (count : Z) (bs : list Bucket)
  : Result (list Bucket) Error :=
  match es with
  | [] => Ok bs
  | (k, v) :: es' =>
      if negb (Offset o =? 0)%Z && (count <? Offset o)%Z
      then listBucketsByOrg_loop tx o es' (count + 1)%Z bs
      else
        match Decode v with
        | Err err => Err (WrappedError err)
        | Ok id =>
            match GetBucket tx id with
            | Err err => Err err
            | Ok b =>
                let bs := (bs ++ [b])%list in
                if (Z.of_nat (List.length bs) >=? Limit o)%Z then Ok bs
                else listBucketsByOrg_loop tx o es' count bs
            end
        end
  end.

(** listBucketsByOrg: the cursor is opened on the index with the prefix key
    as seek key and as prefix, and with no other option. *)
Definition listBucketsByOrg (tx : Tx) (orgID : ID) (o : FindOptions)
  : list Bucket * option Error :=
  (* get the prefix key (org id with an empty name) *)
  match bucketIndexKey orgID "" with
  | Err err => ([], Some (EInvalidError err))
  | Ok key =>
      match tx_Bucket tx bucketIndex with
      | Err err => ([], Some err)
      | Ok idx =>
          match ForwardCursor tx idx key CursorAscending (Some key) with
          | Err err => ([], Some err)
          | Ok cursor =>
              match listBucketsByOrg_loop tx o cursor 0%Z [] with
              | Err err => ([], Some err)
              | Ok bs => (bs, cursor_Err tx idx)
              end
          end
      end
  end.

Fixpoint ListBuckets_loop (filter : BucketFilter) (o : FindOptions)
    (es : list (string * string)) (count : Z) (bs : list Bucket)
  : Result (list Bucket) Error :=
  match es with
  | [] => Ok bs
  | (k, v) :: es' =>
      if negb (Offset o =? 0)%Z && (count <? Offset o)%Z
      then ListBuckets_loop filter o es' (count + 1)%Z bs
      else
        match unmarshalBucket v with
        | Err err => Err err
        | Ok b =>
            (* check to see if it matches the filter *)
            let bs :=
              match f_Name filter with
              | None => (bs ++ [b])%list
              | Some n => if String.eqb n (b_Name b) then (bs ++ [b])%list else bs
              end in
            if (Z.of_nat (List.length bs) >=? Limit o)%Z then Ok bs
            else ListBuckets_loop filter o es' count bs
        end
  end.

(** ListBuckets; [opt] is the variadic argument. *)
Definition ListBuckets (tx : Tx) (filter : BucketFilter) (opt : list FindOptions)
  : list Bucket * option Error :=
  (* this isn't a list action its a GetBucketByName *)
  if match f_OrganizationID filter, f_Name filter with
     | Some oid, Some _ => Valid oid
     | _, _ => false
     end
  then ([], Some invalidBucketListRequest)
  else
    let o := match opt with
             | [] => mkFindOptions DefaultPageSize 0%Z false
             | o0 :: _ => o0
             end in
    let o := if (Limit o >? MaxPageSize)%Z || (Limit o =? 0)%Z
             then mkFindOptions MaxPageSize (Offset o) (Descending o)
             else o in
    (* if an organization is passed we need to use the index *)
    match f_OrganizationID filter with
    | Some oid => listBucketsByOrg tx oid o
    | None =>
        match tx_Bucket tx bucketBucket with
        | Err err => ([], Some err)
        | Ok b =>
            let dir := if Descending o then CursorDescending else CursorAscending in
            match ForwardCursor tx b "" dir None with
            | Err err => ([], Some err)
            | Ok cursor =>
                match ListBuckets_loop filter o cursor 0%Z [] with
                | Err err => ([], Some err)
                | Ok bs => (bs, cursor_Err tx b)
                end
            end
        end
    end.

(** CreateBucket.  [now1] and [now2] are what the two calls of time.Now
    return.  The result is the transaction left behind, the bucket as the
    call leaves it behind the caller's pointer, and the error. *)
Definition CreateBucket (tx : Tx) (bucket : Bucket) (now1 now2 : Time)
  : Tx * Bucket * option Error :=
  match (if negb (Valid (b_ID bucket))
         then match generateSafeID tx bucketBucket with
              | Err err => Err err
              | Ok id => Ok (setID bucket id)
              end
         else Ok bucket) with
  | Err err => (tx, bucket, Some err)
  | Ok bucket =>
  match Encode (b_ID bucket) with
  | Err err => (tx, bucket, Some (InvalidOrgIDError err))
  | Ok encodedID =>
  match uniqueBucketName tx (b_OrgID bucket) (b_Name bucket) with
  | Some err => (tx, bucket, Some err)
  | None =>
  let bucket := SetUpdatedAt (SetCreatedAt bucket now1) now2 in
  match tx_Bucket tx bucketIndex with
  | Err err => (tx, bucket, Some err)
  | Ok idx =>
  match tx_Bucket tx bucketBucket with
  | Err err => (tx, bucket, Some err)
  | Ok b =>
  match marshalBucket bucket with
  | Err err => (tx, bucket, Some err)
  | Ok v =>
  match bucketIndexKey (b_OrgID bucket) (b_Name bucket) with
  | Err err => (tx, bucket, Some err)
  | Ok ikey =>
  match kv_Put tx idx ikey encodedID with
  | (tx, Some err) => (tx, bucket, Some (ErrInternalServiceError err))
  | (tx, None) =>
  match kv_Put tx b encodedID v with
  | (tx, Some err) => (tx, bucket, Some (ErrInternalServiceError err))
  | (tx, None) => (tx, bucket, None)
  end end end end end end end end end.

(** UpdateBucket.  [now] is what time.Now returns. *)
Definition UpdateBucket (tx : Tx) (id : ID) (upd : BucketUpdate) (now : Time)
  : Tx * Result Bucket Error :=
  match Encode id with
  | Err err => (tx, Err err)
  | Ok encodedID =>
  match GetBucket tx id with
  | Err err => (tx, Err err)
  | Ok bucket =>
  let bucket := SetUpdatedAt bucket now in
  let renamed : Tx * Result Bucket Error :=
    match upd_Name upd with
    | None => (tx, Ok bucket)
    | Some name =>
    if String.eqb (b_Name bucket) name then (tx, Ok bucket)
    else
      match b_Type bucket with
      | BucketTypeSystem => (tx, Err errRenameSystemBucket)
      | BucketTypeUser =>
      match uniqueBucketName tx (b_OrgID bucket) name with
      | Some _ => (tx, Err ErrBucketNameNotUnique)
      | None =>
      match tx_Bucket tx bucketIndex with
      | Err err => (tx, Err err)
      | Ok idx =>
      match bucketIndexKey (b_OrgID bucket) (b_Name bucket) with
      | Err err => (tx, Err err)
      | Ok oldIkey =>
      match kv_Delete tx idx oldIkey with
      | (tx, Some err) => (tx, Err (ErrInternalServiceError err))
      | (tx, None) =>
      let bucket := setName bucket name in
      match bucketIndexKey (b_OrgID bucket) (b_Name bucket) with
      | Err err => (tx, Err err)
      | Ok newIkey =>
      match kv_Put tx idx newIkey encodedID with
      | (tx, Some err) => (tx, Err (ErrInternalServiceError err))
      | (tx, None) => (tx, Ok bucket)
      end end end end end end end
    end in
  match renamed with
  | (tx, Err err) => (tx, Err err)
  | (tx, Ok bucket) =>
  let bucket := match upd_Description upd with
                | Some d => setDescription bucket d
                | None => bucket
                end in
  let bucket := match upd_RetentionPeriod upd with
                | Some r => setRetentionPeriod bucket r
                | None => bucket
                end in
  match marshalBucket bucket with
  | Err err => (tx, Err err)
  | Ok v =>
  match tx_Bucket tx bucketBucket with
  | Err err => (tx, Err err)
  | Ok b =>
  match kv_Put tx b encodedID v with
  | (tx, Some err) => (tx, Err (ErrInternalServiceError err))
  | (tx, None) => (tx, Ok bucket)
  end end end end end end.

Definition DeleteBucket (tx : Tx) (id : ID) : Tx * option Error :=
  match GetBucket tx id with
  | Err err => (tx, Some err)
  | Ok bucket =>
  match Encode id with
  | Err err => (tx, Some (InvalidOrgIDError err))
  | Ok encodedID =>
  match tx_Bucket tx bucketIndex with
  | Err err => (tx, Some err)
  | Ok idx =>
  match bucketIndexKey (b_OrgID bucket) (b_Name bucket) with
  | Err err => (tx, Some err)
  | Ok ikey =>
  match kv_Delete tx idx ikey with
  | (tx, Some err) => (tx, Some (ErrInternalServiceError err))
  | (tx, None) =>
  match tx_Bucket tx bucketBucket with
  | Err err => (tx, Some err)
  | Ok b =>
  match kv_Delete tx b encodedID with
  | (tx, Some err) => (tx, Some (ErrInternalServiceError err))
  | (tx, None) => (tx, None)
  end end end end end end end.

End Store.

(** ** Properties of the state and of what the store takes from outside *)

Section Properties.
Context `{Env}.

(** The record [b] survives the codec: the document the encoder produces
    for it decodes to [b] again.  This is a property of one record, not of
    the codec.  encoding/json, which marshalBucket and unmarshalBucket call,
    writes a Name or a Description as UTF-8 and replaces the bytes that are
    not valid UTF-8 by U+FFFD: a record whose strings are valid UTF-8
    survives it, a record that carries other bytes does not. *)
Definition roundtrips (b : Bucket) : Prop :=
  forall v : string, json_Marshal b = Some v -> json_Unmarshal v = Some b.

(** The document the encoder produces for [b] decodes, to a record with the
    identifier of [b]; nothing is asked of the other fields. *)
Definition decodable (b : Bucket) : Prop :=
  forall v : string, json_Marshal b = Some v ->
    exists r, json_Unmarshal v = Some r /\ b_ID r = b_ID b.

(** No call on the engine fails in this transaction. *)
Definition healthy (tx : Tx) : Prop := forall op, tx_fault tx op = None.

(** The sub-container [b] can be opened and read: neither tx.Bucket nor any
    Get on it fails. *)
Definition readable (tx : Tx) (b : BucketName) : Prop :=
  tx_fault tx (OpBucket b) = None /\ forall k, tx_fault tx (OpGet b k) = None.

(** Invariant I1: every primary record, stored under key [k], has exactly
    one index entry pointing at [k], the one under its own (OrgID, Name);
    and every index entry points at a primary record with that
    (OrgID, Name). *)
Definition I1 (tx : Tx) : Prop :=
  (forall k v, tx_buckets tx !! k = Some v ->
     exists b ik,
       json_Unmarshal v = Some b /\
       bucketIndexKey (b_OrgID b) (b_Name b) = Ok ik /\
       tx_index tx !! ik = Some k /\
       (forall ik', tx_index tx !! ik' = Some k -> ik' = ik)) /\
  (forall ik k, tx_index tx !! ik = Some k ->
     exists v b,
       tx_buckets tx !! k = Some v /\
       json_Unmarshal v = Some b /\
       bucketIndexKey (b_OrgID b) (b_Name b) = Ok ik).

(** The bucket [b] is stored in [tx]: its record is in the primary table
    under its identifier and the index entry of its (OrgID, Name) points
    there. *)
Definition stored (tx : Tx) (b : Bucket) : Prop :=
  exists k v ik,
    Encode (b_ID b) = Ok k /\
    tx_buckets tx !! k = Some v /\
    json_Unmarshal v = Some b /\
    bucketIndexKey (b_OrgID b) (b_Name b) = Ok ik /\
    tx_index tx !! ik = Some k.

End Properties.

(** ** A concrete instance, to run the store *)

(** A small self-describing encoding of a bucket record standing in for the
    JSON document: numbers in binary, least significant bit first, closed by
    a dot; strings byte by byte, each byte after a plus sign, closed by a
    minus sign. *)
Fixpoint encPos (p : positive) (rest : string) : string :=
  match p with
  | xH => String "." rest
  | xO p' => String "0" (encPos p' rest)
  | xI p' => String "1" (encPos p' rest)
  end.

Fixpoint decPos (s : string) : option (positive * string) :=
  match s with
  | EmptyString => None
  | String c s' =>
      if Ascii.eqb c "." then Some (xH, s')
      else if Ascii.eqb c "0" then
        match decPos s' with Some (p, r) => Some (xO p, r) | None => None end
      else if Ascii.eqb c "1" then
        match decPos s' with Some (p, r) => Some (xI p, r) | None => None end
      else None
  end.

Definition encN (n : N) (rest : string) : string :=
  match n with
  | N0 => String "z" rest
  | Npos p => String "p" (encPos p rest)
  end.

Definition decN (s : string) : option (N * string) :=
  match s with
  | EmptyString => None
  | String c s' =>
      if Ascii.eqb c "z" then Some (N0, s')
      else if Ascii.eqb c "p" then
        match decPos s' with Some (p, r) => Some (Npos p, r) | None => None end
      else None
  end.

Definition encZ (z : Z) (rest : string) : string :=
  match z with
  | Z0 => String "z" rest
  | Zpos p => String "p" (encPos p rest)
  | Zneg p => String "n" (encPos p rest)
  end.

Definition decZ (s : string) : option (Z * string) :=
  match s with
  | EmptyString => None
  | String c s' =>
      if Ascii.eqb c "z" then Some (Z0, s')
      else if Ascii.eqb c "p" then
        match decPos s' with Some (p, r) => Some (Zpos p, r) | None => None end
      else if Ascii.eqb c "n" then
        match decPos s' with Some (p, r) => Some (Zneg p, r) | None => None end
      else None
  end.

Fixpoint encStr (s : string) (rest : string) : string :=
  match s with
  | EmptyString => String "-" rest
  | String c s' => String "+" (String c (encStr s' rest))
  end.

Fixpoint decStr (s : string) : option (string * string) :=
  match s with
  | EmptyString => None
  | String c s' =>
      if Ascii.eqb c "-" then Some (EmptyString, s')
      else if Ascii.eqb c "+" then
        match s' with
        | EmptyString => None
        | String d s'' =>
            match decStr s'' with
            | Some (t, r) => Some (String d t, r)
            | None => None
            end
        end
      else None
  end.

Definition encType (t : BucketType) (rest : string) : string :=
  match t with
  | BucketTypeUser => String "u" rest
  | BucketTypeSystem => String "s" rest
  end.

Definition decType (s : string) : option (BucketType * string) :=
  match s with
  | EmptyString => None
  | String c s' =>
      if Ascii.eqb c "u" then Some (BucketTypeUser, s')
      else if Ascii.eqb c "s" then Some (BucketTypeSystem, s')
      else None
  end.

Definition toyMarshal (b : Bucket) : option string :=
  Some (encN (b_ID b) (encN (b_OrgID b) (encType (b_Type b)
       (encStr (b_Name b) (encStr (b_Description b)
       (encZ (b_RetentionPeriod b) (encZ (b_CreatedAt b)
       (encZ (b_UpdatedAt b) "")))))))).

Definition toyUnmarshal (s : string) : option Bucket :=
  match decN s with None => None | Some (id, s) =>
  match decN s with None => None | Some (org, s) =>
  match decType s with None => None | Some (ty, s) =>
  match decStr s with None => None | Some (name, s) =>
  match decStr s with None => None | Some (desc, s) =>
  match decZ s with None => None | Some (ret, s) =>
  match decZ s with None => None | Some (created, s) =>
  match decZ s with None => None | Some (updated, s) =>
  match s with
  | EmptyString => Some (mkBucket id org ty name desc ret created updated)
  | _ => None
  end end end end end end end end end.

(** A generator that tries the identifiers from [i] on, at most [fuel] of
    them, and returns the first one whose key is not in the keyspace. *)
Fixpoint toyFreshFrom (fuel : nat) (i : N) (tx : Tx) (b : BucketName)
  : Result ID Error :=
  match fuel with
  | O => Err ErrFailureGeneratingID
  | S fuel' =>
      match Encode i with
      | Err _ => toyFreshFrom fuel' (i + 1)%N tx b
      | Ok k =>
          match table tx b !! k with
          | None => Ok i
          | Some _ => toyFreshFrom fuel' (i + 1)%N tx b
          end
      end
  end.

(** The instance: the constants as the influxdb package declares them
    ("_tasks", identifier 10, three days; "_monitoring", identifier 11,
    seven days; pages of 20, at most 100). *)
Definition toyEnv : Env :=
  mkEnv "_tasks" 10%N 259200000000000%Z
        "_monitoring" 11%N 604800000000000%Z
        20%Z 100%Z
        toyMarshal toyUnmarshal
        (toyFreshFrom 100 4096%N).

Definition noFault : kvOp -> option nat := fun _ => None.

Definition emptyTx : Tx := mkTx ∅ ∅ noFault.

(** ** Example states, built by running the store on the instance *)

(** The organization of the examples. *)
Definition org1 : ID := 1%N.

Definition exBucket (id : ID) (ty : BucketType) (n : string) : Bucket :=
  mkBucket id org1 ty n "" 0%Z 0%Z 0%Z.

Definition toyCreate (tx : Tx) (b : Bucket) : Tx :=
  fst (fst (@CreateBucket toyEnv tx b 5%Z 6%Z)).

Definition stamped (b : Bucket) : Bucket := SetUpdatedAt (SetCreatedAt b 5%Z) 6%Z.

Definition tx_a : Tx := toyCreate emptyTx (exBucket 1%N BucketTypeUser "a").
Definition tx_abc : Tx :=
  toyCreate (toyCreate tx_a (exBucket 2%N BucketTypeUser "b")) (exBucket 3%N BucketTypeUser "c").
Definition tx_sys : Tx := toyCreate emptyTx (exBucket 1%N BucketTypeSystem "sys").
Definition tx_tasks : Tx := toyCreate emptyTx (exBucket 1%N BucketTypeUser "_tasks").
Definition tx_a_again : Tx := toyCreate tx_a (exBucket 1%N BucketTypeUser "z").
Definition tx_noname : Tx := toyCreate emptyTx (exBucket 1%N BucketTypeUser "").

Definition faultyIndexReads (op : kvOp) : option nat :=
  match op with
  | OpGet bucketIndex _ => Some 7%nat
  | _ => None
  end.

Definition tx_a_faulty : Tx := mkTx (tx_buckets tx_a) (tx_index tx_a) faultyIndexReads.

(** ** An instance whose codec rewrites a byte *)

(** The byte FF, which no valid UTF-8 sequence contains. *)
Definition byteFF : ascii := ascii_of_N 255.

(** encoding/json replaces every byte of a string that is not part of a
    valid UTF-8 sequence by U+FFFD, the three bytes EF BF BD.  [coerceFF]
    is that replacement for the byte FF; the other bytes are left alone. *)
Fixpoint coerceFF (s : string) : string :=
  match s with
  | EmptyString => EmptyString
  | String c s' =>
      if Ascii.eqb c byteFF
      then String (ascii_of_N 239) (String (ascii_of_N 191)
             (String (ascii_of_N 189) (coerceFF s')))
      else String c (coerceFF s')
  end.

(** The encoder of the first instance, after the replacement in the two
    strings of the record. *)
Definition lossyMarshal (b : Bucket) : option string :=
  toyMarshal (setDescription (setName b (coerceFF (b_Name b)))
                             (coerceFF (b_Description b))).

Definition lossyEnv : Env :=
  mkEnv "_tasks" 10%N 259200000000000%Z
        "_monitoring" 11%N 604800000000000%Z
        20%Z 100%Z
        lossyMarshal toyUnmarshal
        (toyFreshFrom 100 4096%N).

(** The name made of the byte FF, and what the codec makes of it. *)
Definition nameFF : string := String byteFF "".
Definition nameFFFD : string := coerceFF nameFF.

(** The state after creating a bucket of that name. *)
Definition tx_ff : Tx :=
  fst (fst (@CreateBucket lossyEnv emptyTx (exBucket 1%N BucketTypeUser nameFF) 5%Z 6%Z)).

(** ** Further notions used by the properties *)

(** The record UpdateBucket computes from the loaded one: the fields of the
    patch that are present replace those of the record, UpdatedAt becomes
    the time of the call. *)
Definition patched (b : Bucket) (upd : BucketUpdate) (now : Time) : Bucket :=
  mkBucket (b_ID b) (b_OrgID b) (b_Type b)
    (match upd_Name upd with Some n => n | None => b_Name b end)
    (match upd_Description upd with Some d => d | None => b_Description b end)
    (match upd_RetentionPeriod upd with Some r => r | None => b_RetentionPeriod b end)
    (b_CreatedAt b) now.

(** Every value of the index is the encoding of an identifier. *)
Definition index_canonical (tx : Tx) : Prop :=
  forall ik k, tx_index tx !! ik = Some k -> exists id, Encode id = Ok k.

Section Listing.
Context `{Env}.

(** The records of the primary table that decode, in ascending order of
    their keys. *)
Definition storedBuckets (tx : Tx) : list Bucket :=
  omap (fun e => json_Unmarshal (snd e)) (sortedEntries (tx_buckets tx)).

(** The limit ListBuckets works with. *)
Definition pageLimit (o : FindOptions) : Z :=
  if (Limit o >? MaxPageSize)%Z || (Limit o =? 0)%Z then MaxPageSize else Limit o.

End Listing.

(** ** Further example states *)

(** An index entry that points at no record. *)
Definition tx_dangling : Tx :=
  mkTx ∅ {[ "0000000000000001a" := "0000000000000005" ]} noFault.

(** An engine whose writes to the primary table fail. *)
Definition faultyPrimaryPuts (op : kvOp) : option nat :=
  match op with
  | OpPut bucketBucket _ => Some 9%nat
  | _ => None
  end.

Definition tx_faulty_puts : Tx := mkTx ∅ ∅ faultyPrimaryPuts.

Definition renameTo (n : string) : BucketUpdate := mkBucketUpdate (Some n) None None.

(** ** The authorizing authorization service (authorizer/auth.go) *)

Module Authorizer.

(** The types the file takes from outside, none of them among the sources:
    the context with its authorizer, the types of the influxdb package
    (permissions, authorizations with their ID, OrgID and Permissions
    fields, filters, updates, find options, resource types and the resource
    type of authorizations), the errors of the collaborators, and the state
    behind the wrapped service. *)
Class Types : Type := mkTypes {
  Ctx : Type;
  Permission : Type;
  Authorization : Type;
  AuthorizationFilter : Type;
  AuthorizationUpdate : Type;
  FindOptions : Type;
  ResourceType : Type;
  ExtError : Type;
  State : Type;
  a_ID : Authorization -> ID;
  a_OrgID : Authorization -> ID;
  a_Permissions : Authorization -> list Permission;
  AuthorizationsResourceType : ResourceType
}.

(** The errors the service returns: those of its collaborators, and the one
    VerifyPermissions builds,
    &influxdb.Error{Err: err, Msg: "permission p is not allowed",
    Code: influxdb.EForbidden}. *)
Inductive AError `{Types} : Type :=
| External (e : ExtError)
| PermissionNotAllowed (p : Permission) (cause : AError).

(** AuthorizeRead, AuthorizeWrite, AuthorizeCreate, IsAllowed and
    AuthorizeFindAuthorizations of the package (other files of it); of the
    first four only the error is used. *)
Class Checks `{Types} : Type := mkChecks {
  AuthorizeRead : Ctx -> ResourceType -> ID -> ID -> option AError;
  AuthorizeWrite : Ctx -> ResourceType -> ID -> ID -> option AError;
  AuthorizeCreate : Ctx -> ResourceType -> ID -> option AError;
  IsAllowed : Ctx -> Permission -> option AError;
  AuthorizeFindAuthorizations :
    Ctx -> list Authorization -> list Authorization * Z * option AError
}.

(** influxdb.AuthorizationService, the interface of the wrapped service;
    each method is handed the state and returns the state it leaves. *)
Record AuthorizationService `{Types} : Type := mkService {
  s_FindAuthorizationByID : Ctx -> State -> ID -> State * Result Authorization AError;
  s_FindAuthorizationByToken :
    Ctx -> State -> string -> State * Result Authorization AError;
  s_FindAuthorizations :
    Ctx -> State -> AuthorizationFilter -> list FindOptions ->
    State * (list Authorization * Z * option AError);
  s_CreateAuthorization : Ctx -> State -> Authorization -> State * option AError;
  s_UpdateAuthorization :
    Ctx -> State -> ID -> AuthorizationUpdate -> State * Result Authorization AError;
  s_DeleteAuthorization : Ctx -> State -> ID -> State * option AError
}.

Section Service.
Context `{Checks}.
Variable s : AuthorizationService.

(** FindAuthorizationByID checks to see if the authorizer on context has
    read access to the id provided. *)
Definition FindAuthorizationByID (ctx : Ctx) (st : State) (id : ID)
  : State * Result Authorization AError :=
  match s_FindAuthorizationByID s ctx st id with
  | (st, Err err) => (st, Err err)
  | (st, Ok a) =>
      match AuthorizeRead ctx AuthorizationsResourceType (a_ID a) (a_OrgID a) with
      | Some err => (st, Err err)
      | None => (st, Ok a)
      end
  end.

(** FindAuthorizationByToken retrieves the authorization and checks to see
    if the authorizer on context has read access to the authorization. *)
Definition FindAuthorizationByToken (ctx : Ctx) (st : State) (t : string)
  : State * Result Authorization AError :=
  match s_FindAuthorizationByToken s ctx st t with
  | (st, Err err) => (st, Err err)
  | (st, Ok a) =>
      match AuthorizeRead ctx AuthorizationsResourceType (a_ID a) (a_OrgID a) with
      | Some err => (st, Err err)
      | None => (st, Ok a)
      end
  end.

(** FindAuthorizations retrieves all authorizations that match the provided
    filter and then filters the list down to only the resources that are
    authorized. *)
Definition FindAuthorizations (ctx : Ctx) (st : State) (filter : AuthorizationFilter)
    (opt : list FindOptions)
  : State * (list Authorization * Z * option AError) :=
  match s_FindAuthorizations s ctx st filter opt with
  | (st, (_, _, Some err)) => (st, ([], 0%Z, Some err))
  | (st, (as_, _, None)) => (st, AuthorizeFindAuthorizations ctx as_)
  end.

(** VerifyPermissions ensures that an authorization is allowed all of the
    appropriate permissions. *)
Fixpoint VerifyPermissions (ctx : Ctx) (ps : list Permission) : option AError :=
  match ps with
  | [] => None
  | p :: ps' =>
      match IsAllowed ctx p with
      | Some err => Some (PermissionNotAllowed p err)
      | None => VerifyPermissions ctx ps'
      end
  end.

(** CreateAuthorization checks to see if the authorizer on context has
    write access to the global authorizations resource. *)
Definition CreateAuthorization (ctx : Ctx) (st : State) (a : Authorization)
  : State * option AError :=
  match AuthorizeCreate ctx AuthorizationsResourceType (a_OrgID a) with
  | Some err => (st, Some err)
  | None =>
      match VerifyPermissions ctx (a_Permissions a) with
      | Some err => (st, Some err)
      | None => s_CreateAuthorization s ctx st a
      end
  end.

(** UpdateAuthorization checks to see if the authorizer on context has
    write access to the authorization provided. *)
Definition UpdateAuthorization (ctx : Ctx) (st : State) (id : ID)
    (upd : AuthorizationUpdate)
  : State * Result Authorization AError :=
  match s_FindAuthorizationByID s ctx st id with
  | (st, Err err) => (st, Err err)
  | (st, Ok a) =>
      match AuthorizeWrite ctx AuthorizationsResourceType (a_ID a) (a_OrgID a) with
      | Some err => (st, Err err)
      | None => s_UpdateAuthorization s ctx st id upd
      end
  end.

(** DeleteAuthorization checks to see if the authorizer on context has
    write access to the authorization provided. *)
Definition DeleteAuthorization (ctx : Ctx) (st : State) (id : ID)
  : State * option AError :=
  match s_FindAuthorizationByID s ctx st id with
  | (st, Err err) => (st, Some err)
  | (st, Ok a) =>
      match AuthorizeWrite ctx AuthorizationsResourceType (a_ID a) (a_OrgID a) with
      | Some err => (st, Some err)
      | None => s_DeleteAuthorization s ctx st id
      end
  end.

End Service.

End Authorizer.

(** ** An instance of the authorizer's collaborators, for the examples *)

Module AuthorizerExample.

(** A context carries the numbers of the permissions its authorizer holds;
    an authorization is its ID, its organization and its permissions; the
    wrapped service keeps its authorizations in a list. *)
Definition exTypes : Authorizer.Types :=
  Authorizer.mkTypes (list nat) nat (ID * ID * list nat) unit unit unit unit nat
    (list (ID * ID * list nat))
    (fun a => fst (fst a)) (fun a => snd (fst a)) snd tt.

Definition holds (ctx : list nat) (p : nat) : option (@Authorizer.AError exTypes) :=
  if existsb (Nat.eqb p) ctx then None else Some (Authorizer.External (1%nat : @Authorizer.ExtError exTypes)).

(** Permission 0 reads authorizations, permission 1 writes and creates
    them. *)
Definition exChecks : @Authorizer.Checks exTypes :=
  @Authorizer.mkChecks exTypes
    (fun ctx _ _ _ => holds ctx 0%nat)
    (fun ctx _ _ _ => holds ctx 1%nat)
    (fun ctx _ _ => holds ctx 1%nat)
    holds
    (fun ctx l => match holds ctx 0%nat with
                  | None => (l, Z.of_nat (List.length l), None)
                  | Some _ => ([], 0%Z, None)
                  end).

Definition lookupByID (st : list (ID * ID * list nat)) (id : ID)
  : Result (ID * ID * list nat) (@Authorizer.AError exTypes) :=
  match List.find (fun a => N.eqb (fst (fst a)) id) st with
  | Some a => Ok a
  | None => Err (Authorizer.External (0%nat : @Authorizer.ExtError exTypes))
  end.

Definition exService : @Authorizer.AuthorizationService exTypes :=
  @Authorizer.mkService exTypes
    (fun _ st id => (st, lookupByID st id))
    (fun _ st _ => (st, Err (Authorizer.External (0%nat : @Authorizer.ExtError exTypes))))
    (fun _ st _ _ => (st, (st, Z.of_nat (List.length st), None)))
    (fun _ st a => (a :: st, None))
    (fun _ st id _ => (st, lookupByID st id))
    (fun _ st id => (List.filter (fun a => negb (N.eqb (fst (fst a)) id)) st, None)).

End AuthorizerExample.

(** * Proofs *)

(** ** Identifiers and keys *)

Lemma hexVal_hexDigit (d : N) : (d < 16)%N -> hexVal (hexDigit d) = Some d.
Proof.
  intros Hd.
  assert (Hcases : In d (map N.of_nat (seq 0 16))).
  { apply in_map_iff. exists (N.to_nat d). split; [lia|]. apply in_seq. lia. }
  simpl in Hcases.
  repeat (destruct Hcases as [<- | Hcases]; [reflexivity|]).
  contradiction.
Qed.

Lemma hexEncode_length (w : nat) : forall n acc,
  String.length (hexEncode w n acc) = (w + String.length acc)%nat.
Proof.
  induction w as [|w IH]; intros n acc; simpl; [reflexivity|].
  rewrite IH. simpl. lia.
Qed.

Lemma hexParse_hexEncode (w : nat) : forall n rest a,
  hexParse (hexEncode w n rest) a
  = hexParse rest (a * 16 ^ N.of_nat w + n mod 16 ^ N.of_nat w)%N.
Proof.
  induction w as [|w IH]; intros n rest a.
  - simpl. f_equal. rewrite N.mod_1_r. lia.
  - cbn [hexEncode]. rewrite IH. cbn [hexParse].
    rewrite hexVal_hexDigit by (apply N.mod_lt; lia).
    f_equal.
    replace (N.of_nat (S w)) with (N.succ (N.of_nat w)) by lia.
    rewrite N.pow_succ_r'.
    rewrite (N.Div0.mod_mul_r n 16 (16 ^ N.of_nat w)). lia.
Qed.

Lemma Decode_Encode (i : ID) (k : string) : Encode i = Ok k -> Decode k = Ok i.
Proof.
  unfold Encode. destruct (Valid i) eqn:Hv; [|discriminate].
  intros H. apply (f_equal (fun r => match r with Ok a => a | Err _ => k end)) in H.
  subst k. unfold Decode.
  rewrite hexEncode_length. cbn [String.length Nat.add IDLength Nat.eqb negb].
  rewrite hexParse_hexEncode.
  assert (H64 : (i < 2 ^ 64)%N).
  { unfold Valid in Hv. apply andb_true_iff in Hv as [_ H64]. now apply N.ltb_lt. }
  change (16 ^ N.of_nat IDLength)%N with (2 ^ 64)%N.
  rewrite N.mod_small by assumption. rewrite N.mul_0_l, N.add_0_l.
  cbn [hexParse]. now rewrite Hv.
Qed.

Lemma Encode_length (i : ID) (k : string) :
  Encode i = Ok k -> String.length k = IDLength.
Proof.
  unfold Encode. destruct (Valid i); [|discriminate].
  intros H. apply (f_equal (fun r => match r with Ok a => a | Err _ => k end)) in H.
  subst k. now rewrite hexEncode_length.
Qed.

(** ** The concrete codec round-trips *)

Lemma decPos_encPos (p : positive) (rest : string) :
  decPos (encPos p rest) = Some (p, rest).
Proof.
  induction p as [p IH | p IH |]; cbn [encPos decPos]; cbn; rewrite ?IH; reflexivity.
Qed.

Lemma decN_encN (n : N) (rest : string) : decN (encN n rest) = Some (n, rest).
Proof. destruct n as [|p]; cbn; rewrite ?decPos_encPos; reflexivity. Qed.

Lemma decZ_encZ (z : Z) (rest : string) : decZ (encZ z rest) = Some (z, rest).
Proof. destruct z as [|p|p]; cbn; rewrite ?decPos_encPos; reflexivity. Qed.

Lemma decStr_encStr (s rest : string) : decStr (encStr s rest) = Some (s, rest).
Proof.
  induction s as [|c s IH]; [reflexivity|].
  cbn [encStr]. cbn [decStr]. cbn. rewrite IH. reflexivity.
Qed.

Lemma decType_encType (t : BucketType) (rest : string) :
  decType (encType t rest) = Some (t, rest).
Proof. destruct t; reflexivity. Qed.

Lemma toyUnmarshal_toyMarshal (b : Bucket) (v : string) :
  toyMarshal b = Some v -> toyUnmarshal v = Some b.
Proof.
  unfold toyMarshal. intros [= <-]. unfold toyUnmarshal.
  rewrite !decN_encN, decType_encType, !decStr_encStr, !decZ_encZ.
  destruct b; reflexivity.
Qed.

Lemma toy_roundtrips (b : Bucket) : @roundtrips toyEnv b.
Proof. intros v. apply toyUnmarshal_toyMarshal. Qed.

(** With the codec that rewrites the byte FF, a record survives when the
    replacement leaves its two strings as they are. *)
Lemma lossy_roundtrips (b : Bucket) :
  coerceFF (b_Name b) = b_Name b ->
  coerceFF (b_Description b) = b_Description b ->
  @roundtrips lossyEnv b.
Proof.
  intros Hn Hd v. cbn [json_Marshal json_Unmarshal lossyEnv]. unfold lossyMarshal.
  destruct b as [i o t n d r c u]. cbn [b_Name b_Description] in Hn, Hd.
  unfold setDescription, setName. cbn [b_ID b_OrgID b_Type b_Name b_Description
    b_RetentionPeriod b_CreatedAt b_UpdatedAt]. rewrite Hn, Hd.
  apply toyUnmarshal_toyMarshal.
Qed.

Lemma emptyTx_healthy : healthy emptyTx.
Proof. intros op. reflexivity. Qed.

Lemma healthy_readable (tx : Tx) (b : BucketName) : healthy tx -> readable tx b.
Proof. intros Hh. split; [apply Hh|]. intros k. apply Hh. Qed.

Lemma append_length (a b : string) :
  String.length (a ++ b) = (String.length a + String.length b)%nat.
Proof.
  induction a as [|c a IH]; [reflexivity|].
  change (String c a ++ b) with (String c (a ++ b)).
  cbn [String.length Nat.add]. now f_equal.
Qed.

Lemma bucketIndexKey_length (o : ID) (n key : string) :
  bucketIndexKey o n = Ok key ->
  String.length key = (IDLength + String.length n)%nat.
Proof.
  unfold bucketIndexKey. destruct (Encode o) as [enc|] eqn:He; [|discriminate].
  intros Hk. injection Hk as <-.
  rewrite append_length. now rewrite (Encode_length _ _ He).
Qed.

Lemma bucketIndexKey_nonempty (o : ID) (n key : string) :
  bucketIndexKey o n = Ok key -> Nat.eqb (String.length key) 0 = false.
Proof.
  intros Hk. rewrite (bucketIndexKey_length _ _ _ Hk). reflexivity.
Qed.

(** ** The engine calls and the reads *)

Section StoreLemmas.
Context `{Env}.

Lemma tx_Bucket_Ok (tx : Tx) (b h : BucketName) :
  tx_Bucket tx b = Ok h -> h = b /\ tx_fault tx (OpBucket b) = None.
Proof.
  unfold tx_Bucket. destruct (tx_fault tx (OpBucket b)); [discriminate|].
  intros [= <-]. auto.
Qed.

Lemma kv_Put_None (tx tx' : Tx) (b : BucketName) (k v : string) :
  kv_Put tx b k v = (tx', None) ->
  tx' = setTable tx b (<[k := v]> (table tx b)).
Proof.
  unfold kv_Put. destruct (tx_fault tx (OpPut b k)); [discriminate|].
  now intros [= <-].
Qed.

Lemma kv_Put_Some (tx tx' : Tx) (b : BucketName) (k v : string) (e : Error) :
  kv_Put tx b k v = (tx', Some e) -> tx' = tx.
Proof.
  unfold kv_Put. destruct (tx_fault tx (OpPut b k)); [|discriminate].
  now intros [= <-].
Qed.

Lemma kv_Delete_None (tx tx' : Tx) (b : BucketName) (k : string) :
  kv_Delete tx b k = (tx', None) ->
  tx' = setTable tx b (delete k (table tx b)).
Proof.
  unfold kv_Delete. destruct (tx_fault tx (OpDelete b k)); [discriminate|].
  now intros [= <-].
Qed.

Lemma kv_Delete_Some (tx tx' : Tx) (b : BucketName) (k : string) (e : Error) :
  kv_Delete tx b k = (tx', Some e) -> tx' = tx.
Proof.
  unfold kv_Delete. destruct (tx_fault tx (OpDelete b k)); [|discriminate].
  now intros [= <-].
Qed.

(** The probe answers nil exactly when the key was built, the index could
    be opened and read, and holds nothing under the key. *)
Lemma uniqueBucketName_None (tx : Tx) (o : ID) (n : string) :
  uniqueBucketName tx o n = None ->
  exists key,
    bucketIndexKey o n = Ok key /\
    tx_index tx !! key = None /\
    tx_fault tx (OpBucket bucketIndex) = None /\
    tx_fault tx (OpGet bucketIndex key) = None.
Proof.
  unfold uniqueBucketName.
  destruct (bucketIndexKey o n) as [key|] eqn:Hk; [|discriminate].
  rewrite (bucketIndexKey_nonempty _ _ _ Hk).
  unfold tx_Bucket. destruct (tx_fault tx (OpBucket bucketIndex)) eqn:Hf; [discriminate|].
  unfold kv_Get. destruct (tx_fault tx (OpGet bucketIndex key)) eqn:Hg; [discriminate|].
  cbn [table]. destruct (tx_index tx !! key) eqn:Hl; [discriminate|].
  intros _. exists key. auto.
Qed.

(** On an index that can be read and holds the key, the probe answers
    AlreadyExists. *)
Lemma uniqueBucketName_taken (tx : Tx) (o : ID) (n key k : string) :
  bucketIndexKey o n = Ok key ->
  tx_fault tx (OpBucket bucketIndex) = None ->
  tx_fault tx (OpGet bucketIndex key) = None ->
  tx_index tx !! key = Some k ->
  uniqueBucketName tx o n = Some (BucketAlreadyExistsError n).
Proof.
  intros Hk Hf Hg Hl. unfold uniqueBucketName. rewrite Hk.
  rewrite (bucketIndexKey_nonempty _ _ _ Hk).
  unfold tx_Bucket. rewrite Hf. unfold kv_Get. rewrite Hg. cbn [table].
  now rewrite Hl.
Qed.

Lemma GetBucket_Ok (tx : Tx) (id : ID) (b : Bucket) :
  GetBucket tx id = Ok b ->
  exists k v,
    Encode id = Ok k /\
    tx_buckets tx !! k = Some v /\
    json_Unmarshal v = Some b /\
    tx_fault tx (OpBucket bucketBucket) = None /\
    tx_fault tx (OpGet bucketBucket k) = None.
Proof.
  unfold GetBucket. destruct (Encode id) as [k|] eqn:He; [|discriminate].
  unfold tx_Bucket. destruct (tx_fault tx (OpBucket bucketBucket)) eqn:Hf; [discriminate|].
  unfold kv_Get. destruct (tx_fault tx (OpGet bucketBucket k)) eqn:Hg; [discriminate|].
  cbn [table]. destruct (tx_buckets tx !! k) as [v|] eqn:Hl; [|discriminate].
  unfold unmarshalBucket. destruct (json_Unmarshal v) as [u|] eqn:Hu; [|discriminate].
  intros [= <-]. exists k, v. auto.
Qed.

Lemma GetBucket_lookup (tx : Tx) (id : ID) (k v : string) (b : Bucket) :
  Encode id = Ok k ->
  tx_fault tx (OpBucket bucketBucket) = None ->
  tx_fault tx (OpGet bucketBucket k) = None ->
  tx_buckets tx !! k = Some v ->
  json_Unmarshal v = Some b ->
  GetBucket tx id = Ok b.
Proof.
  intros He Hf Hg Hl Hu. unfold GetBucket. rewrite He.
  unfold tx_Bucket. rewrite Hf. unfold kv_Get. rewrite Hg. cbn [table].
  rewrite Hl. unfold unmarshalBucket. now rewrite Hu.
Qed.

Lemma GetBucket_missing (tx : Tx) (id : ID) (k : string) :
  Encode id = Ok k ->
  tx_fault tx (OpBucket bucketBucket) = None ->
  tx_fault tx (OpGet bucketBucket k) = None ->
  tx_buckets tx !! k = None ->
  GetBucket tx id = Err ErrBucketNotFound.
Proof.
  intros He Hf Hg Hl. unfold GetBucket. rewrite He.
  unfold tx_Bucket. rewrite Hf. unfold kv_Get. rewrite Hg. cbn [table].
  now rewrite Hl.
Qed.

End StoreLemmas.

(** ** The invariant under the table updates the writes perform *)

Section Invariant.
Context `{Env}.

Lemma I1_empty (f : kvOp -> option nat) : I1 (mkTx ∅ ∅ f).
Proof.
  split; cbn [tx_buckets tx_index].
  - intros k v Hl. now rewrite lookup_empty in Hl.
  - intros ik k Hl. now rewrite lookup_empty in Hl.
Qed.

(** A new record under an unused key, with its index entry under an unused
    index key. *)
Lemma I1_insert_fresh (tx : Tx) (k v ik : string) (b : Bucket) :
  I1 tx ->
  json_Unmarshal v = Some b ->
  bucketIndexKey (b_OrgID b) (b_Name b) = Ok ik ->
  tx_index tx !! ik = None ->
  tx_buckets tx !! k = None ->
  I1 (mkTx (<[k := v]> (tx_buckets tx)) (<[ik := k]> (tx_index tx)) (tx_fault tx)).
Proof.
  intros [HP HI] Hu Hik Hfree Hnew. split; cbn [tx_buckets tx_index].
  - intros k' v' Hl. apply lookup_insert_Some in Hl as [[<- <-] | [Hne Hl]].
    + exists b, ik. repeat split; try assumption.
      * apply lookup_insert_eq.
      * intros ik' Hl'. apply lookup_insert_Some in Hl' as [[<- _] | [_ Hl']]; [reflexivity|].
        destruct (HI _ _ Hl') as (v0 & b0 & Hv0 & _). congruence.
    + destruct (HP _ _ Hl) as (b0 & ik0 & Hu0 & Hk0 & Hi0 & Huniq).
      exists b0, ik0. repeat split; try assumption.
      * rewrite lookup_insert_ne; [assumption|]. intros ->. congruence.
      * intros ik' Hl'. apply lookup_insert_Some in Hl' as [[_ Heq] | [_ Hl']]; [congruence|].
        now apply Huniq.
  - intros ik' k' Hl. apply lookup_insert_Some in Hl as [[<- <-] | [Hne Hl]].
    + exists v, b. repeat split; try assumption. apply lookup_insert_eq.
    + destruct (HI _ _ Hl) as (v0 & b0 & Hv0 & Hu0 & Hk0).
      exists v0, b0. repeat split; try assumption.
      rewrite lookup_insert_ne; [assumption|]. intros <-. congruence.
Qed.

(** A record replaced by one with the same (OrgID, Name). *)
Lemma I1_replace (tx : Tx) (k v0 v ik : string) (b0 b : Bucket) :
  I1 tx ->
  tx_buckets tx !! k = Some v0 ->
  json_Unmarshal v0 = Some b0 ->
  bucketIndexKey (b_OrgID b0) (b_Name b0) = Ok ik ->
  json_Unmarshal v = Some b ->
  bucketIndexKey (b_OrgID b) (b_Name b) = Ok ik ->
  I1 (mkTx (<[k := v]> (tx_buckets tx)) (tx_index tx) (tx_fault tx)).
Proof.
  intros [HP HI] Hl0 Hu0 Hk0 Hu Hk. split; cbn [tx_buckets tx_index].
  - intros k' v' Hl. apply lookup_insert_Some in Hl as [[<- <-] | [Hne Hl]].
    + destruct (HP _ _ Hl0) as (b1 & ik1 & Hu1 & Hk1 & Hi1 & Huniq).
      assert (b1 = b0) by congruence. subst b1.
      assert (ik1 = ik) by congruence. subst ik1.
      exists b, ik. auto.
    + apply HP. assumption.
  - intros ik' k' Hl. destruct (HI _ _ Hl) as (v1 & b1 & Hv1 & Hu1 & Hk1).
    destruct (decide (k' = k)) as [-> | Hne].
    + exists v, b. rewrite lookup_insert_eq. repeat split; try assumption.
      assert (v1 = v0) by congruence. subst v1.
      assert (b1 = b0) by congruence. subst b1. congruence.
    + exists v1, b1. rewrite lookup_insert_ne by congruence. auto.
Qed.

(** A record replaced by one under a new, unused (OrgID, Name), its index
    entry moved along. *)
Lemma I1_rename (tx : Tx) (k v0 v old new : string) (b0 b : Bucket) :
  I1 tx ->
  tx_buckets tx !! k = Some v0 ->
  json_Unmarshal v0 = Some b0 ->
  bucketIndexKey (b_OrgID b0) (b_Name b0) = Ok old ->
  json_Unmarshal v = Some b ->
  bucketIndexKey (b_OrgID b) (b_Name b) = Ok new ->
  tx_index tx !! new = None ->
  I1 (mkTx (<[k := v]> (tx_buckets tx))
           (<[new := k]> (delete old (tx_index tx))) (tx_fault tx)).
Proof.
  intros [HP HI] Hl0 Hu0 Hk0 Hu Hk Hfree.
  destruct (HP _ _ Hl0) as (b1 & ik1 & Hu1 & Hk1 & Hi1 & Huniq1).
  assert (b1 = b0) by congruence. subst b1.
  assert (ik1 = old) by congruence. subst ik1.
  split; cbn [tx_buckets tx_index].
  - intros k' v' Hl. apply lookup_insert_Some in Hl as [[<- <-] | [Hne Hl]].
    + exists b, new. repeat split; try assumption.
      * apply lookup_insert_eq.
      * intros ik' Hl'. apply lookup_insert_Some in Hl' as [[<- _] | [_ Hl']]; [reflexivity|].
        apply lookup_delete_Some in Hl' as [Hne Hl']. apply Huniq1 in Hl'. congruence.
    + destruct (HP _ _ Hl) as (b2 & ik2 & Hu2 & Hk2 & Hi2 & Huniq2).
      exists b2, ik2. repeat split; try assumption.
      * rewrite lookup_insert_ne by congruence.
        rewrite lookup_delete_ne by congruence. assumption.
      * intros ik' Hl'. apply lookup_insert_Some in Hl' as [[_ Heq] | [_ Hl']]; [congruence|].
        apply lookup_delete_Some in Hl' as [_ Hl']. now apply Huniq2.
  - intros ik' k' Hl. apply lookup_insert_Some in Hl as [[<- <-] | [Hne Hl]].
    + exists v, b. rewrite lookup_insert_eq. auto.
    + apply lookup_delete_Some in Hl as [Hne' Hl].
      destruct (HI _ _ Hl) as (v2 & b2 & Hv2 & Hu2 & Hk2).
      assert (k' <> k). { intros ->. apply Huniq1 in Hl. congruence. }
      exists v2, b2. rewrite lookup_insert_ne by congruence. auto.
Qed.

(** A record removed together with its index entry. *)
Lemma I1_delete (tx : Tx) (k v0 old : string) (b0 : Bucket) :
  I1 tx ->
  tx_buckets tx !! k = Some v0 ->
  json_Unmarshal v0 = Some b0 ->
  bucketIndexKey (b_OrgID b0) (b_Name b0) = Ok old ->
  I1 (mkTx (delete k (tx_buckets tx)) (delete old (tx_index tx)) (tx_fault tx)).
Proof.
  intros [HP HI] Hl0 Hu0 Hk0.
  destruct (HP _ _ Hl0) as (b1 & ik1 & Hu1 & Hk1 & Hi1 & Huniq1).
  assert (b1 = b0) by congruence. subst b1.
  assert (ik1 = old) by congruence. subst ik1.
  split; cbn [tx_buckets tx_index].
  - intros k' v' Hl. apply lookup_delete_Some in Hl as [Hne Hl].
    destruct (HP _ _ Hl) as (b2 & ik2 & Hu2 & Hk2 & Hi2 & Huniq2).
    exists b2, ik2. repeat split; try assumption.
    + rewrite lookup_delete_ne by congruence. assumption.
    + intros ik' Hl'. apply lookup_delete_Some in Hl' as [_ Hl']. now apply Huniq2.
  - intros ik' k' Hl. apply lookup_delete_Some in Hl as [Hne Hl].
    destruct (HI _ _ Hl) as (v2 & b2 & Hv2 & Hu2 & Hk2).
    assert (k' <> k). { intros ->. apply Huniq1 in Hl. congruence. }
    exists v2, b2. rewrite lookup_delete_ne by congruence. auto.
Qed.

End Invariant.

(** ** What the three writes have done when they succeed *)

Section Writes.
Context `{Env}.

(** What a successful CreateBucket has done. *)
Lemma CreateBucket_success (tx tx' : Tx) (bucket bucket' : Bucket) (now1 now2 : Time) :
  CreateBucket tx bucket now1 now2 = (tx', bucket', None) ->
  exists b0 encodedID v ikey,
    ((Valid (b_ID bucket) = true /\ b0 = bucket) \/
     (Valid (b_ID bucket) = false /\
      exists id, generateSafeID tx bucketBucket = Ok id /\ b0 = setID bucket id)) /\
    Encode (b_ID b0) = Ok encodedID /\
    uniqueBucketName tx (b_OrgID b0) (b_Name b0) = None /\
    bucket' = SetUpdatedAt (SetCreatedAt b0 now1) now2 /\
    json_Marshal bucket' = Some v /\
    bucketIndexKey (b_OrgID b0) (b_Name b0) = Ok ikey /\
    tx_fault tx (OpBucket bucketBucket) = None /\
    tx' = mkTx (<[encodedID := v]> (tx_buckets tx))
               (<[ikey := encodedID]> (tx_index tx)) (tx_fault tx).
Proof.
  unfold CreateBucket.
  set (r := if negb (Valid (b_ID bucket)) then _ else _).
  assert (Hr : forall b0, r = Ok b0 ->
            (Valid (b_ID bucket) = true /\ b0 = bucket) \/
            (Valid (b_ID bucket) = false /\
             exists id, generateSafeID tx bucketBucket = Ok id /\ b0 = setID bucket id)).
  { intros b0. unfold r. destruct (Valid (b_ID bucket)); cbn [negb].
    - intros [= <-]. left. auto.
    - destruct (generateSafeID tx bucketBucket) as [id|]; [|discriminate].
      intros [= <-]. right. split; [reflexivity|]. exists id. auto. }
  destruct r as [b0|]; [|discriminate]. specialize (Hr b0 eq_refl).
  destruct (Encode (b_ID b0)) as [encodedID|] eqn:He; [|discriminate].
  destruct (uniqueBucketName tx (b_OrgID b0) (b_Name b0)) eqn:Hu; [discriminate|].
  cbn zeta.
  destruct (tx_Bucket tx bucketIndex) as [idx|] eqn:Hidx; [|discriminate].
  apply tx_Bucket_Ok in Hidx as [-> _].
  destruct (tx_Bucket tx bucketBucket) as [bb|] eqn:Hbb; [|discriminate].
  apply tx_Bucket_Ok in Hbb as [-> Hfb].
  unfold marshalBucket.
  destruct (json_Marshal (SetUpdatedAt (SetCreatedAt b0 now1) now2)) as [v|] eqn:Hm;
    [|discriminate].
  change (b_OrgID (SetUpdatedAt (SetCreatedAt b0 now1) now2)) with (b_OrgID b0).
  change (b_Name (SetUpdatedAt (SetCreatedAt b0 now1) now2)) with (b_Name b0).
  destruct (bucketIndexKey (b_OrgID b0) (b_Name b0)) as [ikey|] eqn:Hk; [|discriminate].
  destruct (kv_Put tx bucketIndex ikey encodedID) as [tx1 [e1|]] eqn:Hp1; [discriminate|].
  apply kv_Put_None in Hp1. subst tx1.
  destruct (kv_Put _ bucketBucket encodedID v) as [tx2 [e2|]] eqn:Hp2; [discriminate|].
  apply kv_Put_None in Hp2. subst tx2.
  intros [= <- <-].
  exists b0, encodedID, v, ikey. repeat split; auto.
Qed.

(** What a successful UpdateBucket has done: either the record alone is
    replaced, its name kept, or the record is replaced and its index entry
    moved to the new name, which was free. *)
Lemma UpdateBucket_success (tx tx' : Tx) (id : ID) (upd : BucketUpdate)
    (now : Time) (b' : Bucket) :
  UpdateBucket tx id upd now = (tx', Ok b') ->
  exists encodedID b0 v oldIkey,
    Encode id = Ok encodedID /\
    GetBucket tx id = Ok b0 /\
    json_Marshal b' = Some v /\
    b_ID b' = b_ID b0 /\
    b_OrgID b' = b_OrgID b0 /\
    b_Type b' = b_Type b0 /\
    ((b_Name b' = b_Name b0 /\
      tx' = mkTx (<[encodedID := v]> (tx_buckets tx)) (tx_index tx) (tx_fault tx)) \/
     (upd_Name upd = Some (b_Name b') /\
      b_Name b' <> b_Name b0 /\
      bucketIndexKey (b_OrgID b0) (b_Name b0) = Ok oldIkey /\
      exists newIkey,
        bucketIndexKey (b_OrgID b0) (b_Name b') = Ok newIkey /\
        tx_index tx !! newIkey = None /\
        tx' = mkTx (<[encodedID := v]> (tx_buckets tx))
                   (<[newIkey := encodedID]> (delete oldIkey (tx_index tx)))
                   (tx_fault tx))).
Proof.
  unfold UpdateBucket.
  destruct (Encode id) as [encodedID|] eqn:He; [|discriminate].
  destruct (GetBucket tx id) as [b0|] eqn:Hg; [|discriminate].
  cbn zeta.
  set (bu := SetUpdatedAt b0 now).
  set (renamed := match upd_Name upd with Some _ => _ | None => _ end).
  assert (Hren : forall tx1 b1, renamed = (tx1, Ok b1) ->
            b_ID b1 = b_ID b0 /\ b_OrgID b1 = b_OrgID b0 /\ b_Type b1 = b_Type b0 /\
            b_Description b1 = b_Description b0 /\
            ((b_Name b1 = b_Name b0 /\ tx1 = tx) \/
             (upd_Name upd = Some (b_Name b1) /\
              b_Name b1 <> b_Name b0 /\
              exists oldIkey newIkey,
                bucketIndexKey (b_OrgID b0) (b_Name b0) = Ok oldIkey /\
                bucketIndexKey (b_OrgID b0) (b_Name b1) = Ok newIkey /\
                tx_index tx !! newIkey = None /\
                tx1 = mkTx (tx_buckets tx)
                           (<[newIkey := encodedID]> (delete oldIkey (tx_index tx)))
                           (tx_fault tx)))).
  { intros tx1 b1. unfold renamed. clear renamed.
    destruct (upd_Name upd) as [name|].
    2:{ intros [= <- <-]. repeat split; auto. }
    change (b_Name bu) with (b_Name b0). change (b_OrgID bu) with (b_OrgID b0).
    change (b_Type bu) with (b_Type b0).
    destruct (String.eqb (b_Name b0) name) eqn:Heq.
    { intros [= <- <-]. repeat split; auto. }
    apply String.eqb_neq in Heq.
    destruct (b_Type b0) eqn:Hty; [|discriminate].
    destruct (uniqueBucketName tx (b_OrgID b0) name) eqn:Hu; [discriminate|].
    destruct (tx_Bucket tx bucketIndex) as [idx|] eqn:Hidx; [|discriminate].
    apply tx_Bucket_Ok in Hidx as [-> _].
    destruct (bucketIndexKey (b_OrgID b0) (b_Name b0)) as [oldIkey|] eqn:Hko; [|discriminate].
    destruct (kv_Delete tx bucketIndex oldIkey) as [tx2 [e|]] eqn:Hd; [discriminate|].
    apply kv_Delete_None in Hd. subst tx2.
    change (b_OrgID (setName bu name)) with (b_OrgID b0).
    change (b_Name (setName bu name)) with name.
    destruct (bucketIndexKey (b_OrgID b0) name) as [newIkey|] eqn:Hkn; [|discriminate].
    destruct (kv_Put _ bucketIndex newIkey encodedID) as [tx3 [e|]] eqn:Hp; [discriminate|].
    apply kv_Put_None in Hp. subst tx3.
    intros [= <- <-]. cbn [b_ID b_OrgID b_Type b_Name b_Description setName bu SetUpdatedAt].
    repeat split; auto. right. repeat split; auto.
    apply uniqueBucketName_None in Hu as (key & Hkey & Hfree & _).
    exists oldIkey, newIkey. repeat split; auto. congruence. }
  destruct renamed as [tx1 [b1|]]; [|discriminate].
  destruct (Hren tx1 b1 eq_refl) as (HID & HOrg & HTy & _ & Hcases). clear Hren.
  set (b2 := match upd_Description upd with Some d => setDescription b1 d | None => b1 end).
  set (b3 := match upd_RetentionPeriod upd with Some r => setRetentionPeriod b2 r | None => b2 end).
  assert (H3 : b_ID b3 = b_ID b1 /\ b_OrgID b3 = b_OrgID b1 /\ b_Type b3 = b_Type b1 /\
               b_Name b3 = b_Name b1).
  { unfold b3, b2. destruct (upd_RetentionPeriod upd), (upd_Description upd); auto. }
  destruct H3 as (H3id & H3org & H3ty & H3name).
  unfold marshalBucket.
  destruct (json_Marshal b3) as [v|] eqn:Hm; [|discriminate].
  destruct (tx_Bucket tx1 bucketBucket) as [bb|] eqn:Hbb; [|discriminate].
  apply tx_Bucket_Ok in Hbb as [-> _].
  destruct (kv_Put tx1 bucketBucket encodedID v) as [tx2 [e|]] eqn:Hp; [discriminate|].
  apply kv_Put_None in Hp. subst tx2.
  intros [= <- <-].
  destruct Hcases as [[Hn ->] | (Hupd & Hne & oldIkey & newIkey & Hko & Hkn & Hfree & ->)].
  - exists encodedID, b0, v, "". repeat split; try congruence. left. split; [congruence|reflexivity].
  - exists encodedID, b0, v, oldIkey. repeat split; try congruence.
    right. repeat split; try congruence. exists newIkey. repeat split; congruence.
Qed.

(** What a successful DeleteBucket has done. *)
Lemma DeleteBucket_success (tx tx' : Tx) (id : ID) :
  DeleteBucket tx id = (tx', None) ->
  exists b0 encodedID ikey,
    GetBucket tx id = Ok b0 /\
    Encode id = Ok encodedID /\
    bucketIndexKey (b_OrgID b0) (b_Name b0) = Ok ikey /\
    tx_fault tx (OpBucket bucketIndex) = None /\
    tx' = mkTx (delete encodedID (tx_buckets tx)) (delete ikey (tx_index tx))
               (tx_fault tx).
Proof.
  unfold DeleteBucket.
  destruct (GetBucket tx id) as [b0|] eqn:Hg; [|discriminate].
  destruct (Encode id) as [encodedID|] eqn:He; [|discriminate].
  destruct (tx_Bucket tx bucketIndex) as [idx|] eqn:Hidx; [|discriminate].
  apply tx_Bucket_Ok in Hidx as [-> Hfi].
  destruct (bucketIndexKey (b_OrgID b0) (b_Name b0)) as [ikey|] eqn:Hk; [|discriminate].
  destruct (kv_Delete tx bucketIndex ikey) as [tx1 [e|]] eqn:Hd; [discriminate|].
  apply kv_Delete_None in Hd. subst tx1.
  destruct (tx_Bucket _ bucketBucket) as [bb|] eqn:Hbb; [|discriminate].
  apply tx_Bucket_Ok in Hbb as [-> _].
  destruct (kv_Delete _ bucketBucket encodedID) as [tx2 [e|]] eqn:Hd2; [discriminate|].
  apply kv_Delete_None in Hd2. subst tx2.
  intros [= <-]. exists b0, encodedID, ikey. repeat split; auto.
Qed.

End Writes.

(** ** The writes keep the invariant; create, update and their errors *)

Section WritesAndReads.
Context `{Env}.

Lemma CreateBucket_preserves_I1 (tx tx' : Tx) (bucket bucket' : Bucket) (now1 now2 : Time) :
  roundtrips bucket' -> I1 tx ->
  CreateBucket tx bucket now1 now2 = (tx', bucket', None) ->
  (forall k, Encode (b_ID bucket') = Ok k -> tx_buckets tx !! k = None) ->
  I1 tx'.
Proof.
  intros Hrt Hinv Hc Hfresh.
  apply CreateBucket_success in Hc
    as (b0 & encodedID & v & ikey & _ & He & Hu & -> & Hm & Hk & _ & ->).
  apply uniqueBucketName_None in Hu as (key & Hkey & Hfree & _).
  assert (key = ikey) by congruence. subst key.
  pose proof (Hrt v Hm) as Hdec.
  apply I1_insert_fresh with (b := SetUpdatedAt (SetCreatedAt b0 now1) now2); auto.
Qed.

Lemma UpdateBucket_preserves_I1 (tx tx' : Tx) (id : ID) (upd : BucketUpdate)
    (now : Time) (b' : Bucket) :
  roundtrips b' -> I1 tx ->
  UpdateBucket tx id upd now = (tx', Ok b') ->
  I1 tx'.
Proof.
  intros Hrt Hinv Hu.
  apply UpdateBucket_success in Hu
    as (encodedID & b0 & v & oldIkey & He & Hg & Hm & _ & Horg & _ & Hcases).
  pose proof (Hrt v Hm) as Hdec.
  apply GetBucket_Ok in Hg as (k & v0 & He' & Hl0 & Hu0 & _).
  assert (k = encodedID) by congruence. subst k.
  destruct (proj1 Hinv _ _ Hl0) as (b1 & ik1 & Hu1 & Hk1 & _).
  assert (b1 = b0) by congruence. subst b1.
  destruct Hcases as [[Hn ->] | (_ & Hne & Hko & newIkey & Hkn & Hfree & ->)].
  - apply I1_replace with (v0 := v0) (ik := ik1) (b0 := b0) (b := b'); auto.
    now rewrite Horg, Hn.
  - apply I1_rename with (v0 := v0) (b0 := b0) (b := b'); auto.
    now rewrite Horg.
Qed.

Lemma DeleteBucket_preserves_I1 (tx tx' : Tx) (id : ID) :
  I1 tx -> DeleteBucket tx id = (tx', None) -> I1 tx'.
Proof.
  intros Hinv Hd.
  apply DeleteBucket_success in Hd as (b0 & encodedID & ikey & Hg & He & Hk & _ & ->).
  apply GetBucket_Ok in Hg as (k & v0 & He' & Hl0 & Hu0 & _).
  assert (k = encodedID) by congruence. subst k.
  apply I1_delete with (v0 := v0) (b0 := b0); auto.
Qed.

(** C1, as amended.  Invariant I1 is preserved by the three writes, with two
    provisos.  From a state that satisfies it, a CreateBucket that returns
    success leaves a state that satisfies it, provided the identifier the
    bucket ends up with, generated or supplied by the caller, was not yet a
    key of the primary table, and the bucket it writes survives the codec;
    an UpdateBucket that returns success leaves a state that satisfies it,
    provided the bucket it writes survives the codec; a DeleteBucket that
    returns success always leaves a state that satisfies it.  A bucket
    survives encoding/json when its Name and Description are valid UTF-8;
    nothing is assumed of the codec on other records. *)
Theorem I1_preserved_by_writes (tx : Tx) :
  I1 tx ->
  (forall bucket now1 now2 tx' bucket',
      CreateBucket tx bucket now1 now2 = (tx', bucket', None) ->
      roundtrips bucket' ->
      (forall k, Encode (b_ID bucket') = Ok k -> tx_buckets tx !! k = None) ->
      I1 tx') /\
  (forall id upd now tx' b',
      UpdateBucket tx id upd now = (tx', Ok b') -> roundtrips b' -> I1 tx') /\
  (forall id tx', DeleteBucket tx id = (tx', None) -> I1 tx').
Proof.
  intros Hinv. split; [|split].
  - intros bucket now1 now2 tx' bucket' Hc Hrt Hfresh.
    exact (CreateBucket_preserves_I1 _ _ _ _ _ _ Hrt Hinv Hc Hfresh).
  - intros id upd now tx' b' Hu Hrt.
    exact (UpdateBucket_preserves_I1 _ _ _ _ _ _ Hrt Hinv Hu).
  - intros id tx' Hd. exact (DeleteBucket_preserves_I1 _ _ _ Hinv Hd).
Qed.

(** C3.  After a CreateBucket that returns success for a bucket of
    organization o and name n, GetBucketByName(o, n) on the resulting state
    returns a record with the identifier of the created bucket, and
    GetBucket of that identifier returns the very same record.  The created
    bucket has organization o and name n; the record is the created bucket
    itself when that bucket survives the codec.  Nothing is asked of the
    name: the index entry written by the create is found before the
    reserved names are looked at, and a name the codec rewrites is covered.
    The reads of the primary table are taken not to fail, and the document
    written for the bucket to decode to a record with its identifier, as
    encoding/json has it for every bucket it encodes. *)
Theorem CreateBucket_then_lookup (tx tx' : Tx) (bucket bucket' : Bucket) (now1 now2 : Time) :
  (forall k, tx_fault tx (OpGet bucketBucket k) = None) ->
  decodable bucket' ->
  CreateBucket tx bucket now1 now2 = (tx', bucket', None) ->
  exists r,
    GetBucketByName tx' (b_OrgID bucket) (b_Name bucket) = Ok r /\
    b_ID r = b_ID bucket' /\
    GetBucket tx' (b_ID r) = Ok r /\
    b_OrgID bucket' = b_OrgID bucket /\ b_Name bucket' = b_Name bucket /\
    (roundtrips bucket' -> r = bucket').
Proof.
  intros Hread Hdec Hc.
  apply CreateBucket_success in Hc
    as (b0 & encodedID & v & ikey & Hid & He & Hu & -> & Hm & Hk & Hfb & ->).
  apply uniqueBucketName_None in Hu as (key & Hkey & _ & Hfi & Hgi).
  assert (key = ikey) by congruence. subst key.
  assert (Horg : b_OrgID b0 = b_OrgID bucket /\ b_Name b0 = b_Name bucket).
  { destruct Hid as [[_ ->] | [_ (id & _ & ->)]]; auto. }
  destruct Horg as [Horg Hname].
  set (b' := SetUpdatedAt (SetCreatedAt b0 now1) now2) in *.
  destruct (Hdec v Hm) as (r & Hr & Hrid).
  change (b_ID b') with (b_ID b0) in Hrid.
  assert (Hget : GetBucket
            (mkTx (<[encodedID := v]> (tx_buckets tx))
                  (<[ikey := encodedID]> (tx_index tx)) (tx_fault tx))
            (b_ID b0) = Ok r).
  { apply GetBucket_lookup with (k := encodedID) (v := v); auto.
    - apply Hread.
    - cbn [tx_buckets]. apply lookup_insert_eq. }
  exists r. split; [|split; [|split; [|split; [|split]]]].
  - unfold GetBucketByName. rewrite <- Horg, <- Hname, Hk.
    unfold tx_Bucket. cbn [tx_fault]. rewrite Hfi.
    unfold kv_Get. cbn [tx_fault table tx_index]. rewrite Hgi.
    rewrite lookup_insert_eq. rewrite (Decode_Encode _ _ He). exact Hget.
  - exact Hrid.
  - rewrite Hrid. exact Hget.
  - exact Horg.
  - exact Hname.
  - intros Hrt. pose proof (Hrt v Hm) as Hb. congruence.
Qed.

(** C4.  In a state that holds a bucket of organization o and name n, and
    whose index can be read, a CreateBucket of another bucket with the same
    (o, n) fails with BucketAlreadyExistsError (the AlreadyExists kind) and
    returns the very transaction it was given: neither table has changed.
    The bucket either comes with a valid identifier or the generator hands
    one out. *)
Theorem CreateBucket_duplicate_rejected (tx : Tx) (b0 bucket : Bucket) (now1 now2 : Time) :
  readable tx bucketIndex ->
  stored tx b0 ->
  b_OrgID bucket = b_OrgID b0 ->
  b_Name bucket = b_Name b0 ->
  (Valid (b_ID bucket) = true \/
   exists id, generateSafeID tx bucketBucket = Ok id /\ Valid id = true) ->
  exists bucket',
    CreateBucket tx bucket now1 now2
    = (tx, bucket', Some (BucketAlreadyExistsError (b_Name bucket))).
Proof.
  intros [Hfi Hgi] (k & v & ik & _ & _ & _ & Hik & Hl) Horg Hname Hid.
  assert (Hprobe : forall b, b_OrgID b = b_OrgID bucket -> b_Name b = b_Name bucket ->
            uniqueBucketName tx (b_OrgID b) (b_Name b)
            = Some (BucketAlreadyExistsError (b_Name bucket))).
  { intros b Ho Hn. rewrite Ho, Hn.
    apply uniqueBucketName_taken with (key := ik) (k := k); auto. congruence. }
  unfold CreateBucket.
  destruct (Valid (b_ID bucket)) eqn:Hv; cbn [negb].
  - unfold Encode. rewrite Hv. rewrite (Hprobe bucket eq_refl eq_refl). eauto.
  - destruct Hid as [Hid | (id & Hgen & Hvid)]; [discriminate|].
    rewrite Hgen. unfold Encode. cbn [setID b_ID]. rewrite Hvid.
    rewrite (Hprobe (setID bucket id) eq_refl eq_refl). eauto.
Qed.

(** C5.  An UpdateBucket whose patch carries a name different from the
    current one, on a bucket that loads as System-type, fails with
    errRenameSystemBucket (the Forbidden kind) and returns the very
    transaction it was given: neither the index nor the primary table has
    changed. *)
Theorem UpdateBucket_rename_system_forbidden (tx : Tx) (id : ID) (upd : BucketUpdate)
    (now : Time) (b : Bucket) (n : string) :
  GetBucket tx id = Ok b ->
  b_Type b = BucketTypeSystem ->
  upd_Name upd = Some n ->
  n <> b_Name b ->
  UpdateBucket tx id upd now = (tx, Err errRenameSystemBucket).
Proof.
  intros Hg Hty Hn Hne. unfold UpdateBucket.
  destruct (GetBucket_Ok _ _ _ Hg) as (k & v & He & _).
  rewrite He, Hg. cbn zeta. rewrite Hn.
  change (b_Name (SetUpdatedAt b now)) with (b_Name b).
  change (b_Type (SetUpdatedAt b now)) with (b_Type b).
  assert (Heq : String.eqb (b_Name b) n = false) by (apply String.eqb_neq; congruence).
  rewrite Heq, Hty. reflexivity.
Qed.

End WritesAndReads.

(** ** Lookups by name, deletes and lists *)

Section LookupsAndLists.
Context `{Env}.

(** What GetBucketByName answers when the index holds nothing under the key. *)
Lemma GetBucketByName_on_miss (tx : Tx) (o : ID) (n key : string) :
  readable tx bucketIndex ->
  bucketIndexKey o n = Ok key ->
  tx_index tx !! key = None ->
  GetBucketByName tx o n =
    if String.eqb n TasksSystemBucketName then
      Ok (mkBucket TasksSystemBucketID o BucketTypeSystem TasksSystemBucketName
                   "System bucket for task logs" TasksSystemBucketRetention 0%Z 0%Z)
    else if String.eqb n MonitoringSystemBucketName then
      Ok (mkBucket MonitoringSystemBucketID o BucketTypeSystem
                   MonitoringSystemBucketName "System bucket for monitoring logs"
                   MonitoringSystemBucketRetention 0%Z 0%Z)
    else Err (ErrBucketNotFoundByName n).
Proof.
  intros [Hfi Hgi] Hk Hl. unfold GetBucketByName. rewrite Hk.
  unfold tx_Bucket. rewrite Hfi. unfold kv_Get. rewrite Hgi. cbn [table].
  rewrite Hl. reflexivity.
Qed.

(** C6.  When the index can be read and holds nothing under the key of
    (o, n): for n the tasks name GetBucketByName returns a System-type
    record with the tasks identifier and retention period, OrgID o and name
    n; for n the monitoring name, the same with the monitoring identifier
    and retention period; for any other name it fails with
    ErrBucketNotFoundByName.  This holds for every state of the two tables
    that misses the key, the empty ones included, and GetBucketByName only
    reads: it returns no transaction.  The two reserved names are distinct
    constants. *)
Theorem GetBucketByName_miss (tx : Tx) (o : ID) (n key : string) :
  TasksSystemBucketName <> MonitoringSystemBucketName ->
  readable tx bucketIndex ->
  bucketIndexKey o n = Ok key ->
  tx_index tx !! key = None ->
  (n = TasksSystemBucketName ->
   exists b, GetBucketByName tx o n = Ok b /\
     b_Type b = BucketTypeSystem /\ b_ID b = TasksSystemBucketID /\
     b_RetentionPeriod b = TasksSystemBucketRetention /\
     b_OrgID b = o /\ b_Name b = n) /\
  (n = MonitoringSystemBucketName ->
   exists b, GetBucketByName tx o n = Ok b /\
     b_Type b = BucketTypeSystem /\ b_ID b = MonitoringSystemBucketID /\
     b_RetentionPeriod b = MonitoringSystemBucketRetention /\
     b_OrgID b = o /\ b_Name b = n) /\
  (n <> TasksSystemBucketName -> n <> MonitoringSystemBucketName ->
   GetBucketByName tx o n = Err (ErrBucketNotFoundByName n)).
Proof.
  intros Hdist Hr Hk Hl.
  rewrite (GetBucketByName_on_miss _ _ _ _ Hr Hk Hl).
  split; [|split].
  - intros ->. rewrite String.eqb_refl. eexists. split; [reflexivity|]. cbn. auto.
  - intros ->.
    assert (Hne : String.eqb MonitoringSystemBucketName TasksSystemBucketName = false)
      by (apply String.eqb_neq; congruence).
    rewrite Hne, String.eqb_refl. eexists. split; [reflexivity|]. cbn. auto.
  - intros Hn1 Hn2. apply String.eqb_neq in Hn1, Hn2. now rewrite Hn1, Hn2.
Qed.

(** C7, as amended.  For a bucket stored under identifier X, with
    organization o and name n, after a DeleteBucket(X) that returns success
    GetBucket(X) fails with ErrBucketNotFound and the index holds nothing
    under the key of (o, n); GetBucketByName(o, n) fails with
    ErrBucketNotFoundByName when n is neither of the two reserved
    system-bucket names.  The index is taken to be readable. *)
Theorem DeleteBucket_then_lookups (tx tx' : Tx) (X : ID) (b : Bucket) :
  readable tx bucketIndex ->
  GetBucket tx X = Ok b ->
  DeleteBucket tx X = (tx', None) ->
  GetBucket tx' X = Err ErrBucketNotFound /\
  (exists key, bucketIndexKey (b_OrgID b) (b_Name b) = Ok key /\
               tx_index tx' !! key = None) /\
  (b_Name b <> TasksSystemBucketName ->
   b_Name b <> MonitoringSystemBucketName ->
   GetBucketByName tx' (b_OrgID b) (b_Name b)
   = Err (ErrBucketNotFoundByName (b_Name b))).
Proof.
  intros Hr Hg Hd.
  apply DeleteBucket_success in Hd as (b0 & encodedID & ikey & Hg' & He & Hk & _ & ->).
  assert (b0 = b) by congruence. subst b0.
  apply GetBucket_Ok in Hg as (k & v & He' & _ & _ & Hfb & Hgb).
  assert (k = encodedID) by congruence. subst k.
  assert (Hgone : tx_index (mkTx (delete encodedID (tx_buckets tx))
                                 (delete ikey (tx_index tx)) (tx_fault tx)) !! ikey = None)
    by (cbn [tx_index]; apply lookup_delete_eq).
  split; [|split].
  - apply GetBucket_missing with (k := encodedID); auto.
    cbn [tx_buckets]. apply lookup_delete_eq.
  - exists ikey. auto.
  - intros Hn1 Hn2.
    rewrite (GetBucketByName_on_miss _ _ _ ikey); auto.
    apply String.eqb_neq in Hn1, Hn2. now rewrite Hn1, Hn2.
Qed.

(** C8, as amended.  A ListBuckets whose filter has both Name and
    OrganizationID set returns no results and fails: with
    invalidBucketListRequest when the organization identifier is valid; when
    it is not, with the invalid-identifier error of the key builder, wrapped
    by listBucketsByOrg. *)
Theorem ListBuckets_name_and_org (tx : Tx) (n : string) (oid : ID) (opt : list FindOptions) :
  ListBuckets tx (mkBucketFilter (Some n) (Some oid)) opt
  = ([], Some (if Valid oid then invalidBucketListRequest
               else EInvalidError (EInvalidError ErrInvalidID))).
Proof.
  unfold ListBuckets. cbn [f_OrganizationID f_Name].
  destruct (Valid oid) eqn:Hv; [reflexivity|].
  cbn zeta. unfold listBucketsByOrg, bucketIndexKey, Encode. now rewrite Hv.
Qed.

(** C10.  In an UpdateBucket that renames a bucket that is not System-type,
    whatever error the uniqueness probe returns, the name being taken or a
    failure of the engine reading the index, the call fails with
    ErrBucketNameNotUnique and returns the transaction it was given. *)
Theorem UpdateBucket_probe_failure_is_NameNotUnique (tx : Tx) (id : ID)
    (upd : BucketUpdate) (now : Time) (b : Bucket) (n : string) (err : Error) :
  GetBucket tx id = Ok b ->
  b_Type b <> BucketTypeSystem ->
  upd_Name upd = Some n ->
  n <> b_Name b ->
  uniqueBucketName tx (b_OrgID b) n = Some err ->
  UpdateBucket tx id upd now = (tx, Err ErrBucketNameNotUnique).
Proof.
  intros Hg Hty Hn Hne Hu. unfold UpdateBucket.
  destruct (GetBucket_Ok _ _ _ Hg) as (k & v & He & _).
  rewrite He, Hg. cbn zeta. rewrite Hn.
  change (b_Name (SetUpdatedAt b now)) with (b_Name b).
  change (b_Type (SetUpdatedAt b now)) with (b_Type b).
  change (b_OrgID (SetUpdatedAt b now)) with (b_OrgID b).
  assert (Heq : String.eqb (b_Name b) n = false) by (apply String.eqb_neq; congruence).
  rewrite Heq. destruct (b_Type b); [|congruence].
  now rewrite Hu.
Qed.

(** The probe never answers with the empty-name error: the key it measures
    starts with the sixteen bytes of the organization identifier. *)
Lemma uniqueBucketName_never_ErrNameisEmpty (tx : Tx) (o : ID) (n : string) :
  uniqueBucketName tx o n <> Some ErrNameisEmpty.
Proof.
  unfold uniqueBucketName.
  destruct (bucketIndexKey o n) as [key|e] eqn:Hk.
  - rewrite (bucketIndexKey_nonempty _ _ _ Hk).
    destruct (tx_Bucket tx bucketIndex) as [idx|e] eqn:Hb.
    + destruct (kv_Get tx idx key) as [v|e]; [discriminate|].
      destruct (IsNotFound e); discriminate.
    + unfold tx_Bucket in Hb. destruct (tx_fault tx (OpBucket bucketIndex)); congruence.
  - unfold bucketIndexKey in Hk. destruct (Encode o); congruence.
Qed.

(** listBucketsByOrg never looks at the direction asked for. *)
Lemma listBucketsByOrg_ignores_Descending (tx : Tx) (orgID : ID) (l off : Z) (d : bool) :
  listBucketsByOrg tx orgID (mkFindOptions l off d)
  = listBucketsByOrg tx orgID (mkFindOptions l off false).
Proof.
  unfold listBucketsByOrg.
  destruct (bucketIndexKey orgID "") as [key|]; [|reflexivity].
  destruct (tx_Bucket tx bucketIndex) as [idx|]; [|reflexivity].
  destruct (ForwardCursor tx idx key CursorAscending (Some key)) as [cursor|]; [|reflexivity].
  assert (Hloop : forall es count bs,
            listBucketsByOrg_loop tx (mkFindOptions l off d) es count bs
            = listBucketsByOrg_loop tx (mkFindOptions l off false) es count bs).
  { induction es as [|[k v] es IH]; intros count bs; [reflexivity|].
    cbn [listBucketsByOrg_loop Offset Limit].
    destruct (negb (off =? 0)%Z && (count <? off)%Z); [apply IH|].
    destruct (Decode v) as [id|]; [|reflexivity].
    destruct (GetBucket tx id) as [b|]; [|reflexivity].
    destruct (Z.of_nat (length (bs ++ [b])) >=? l)%Z; [reflexivity|apply IH]. }
  now rewrite Hloop.
Qed.

End LookupsAndLists.

(** ** The store at work on the example states *)

Lemma I1_tx_a : @I1 toyEnv tx_a.
Proof.
  apply (@CreateBucket_preserves_I1 toyEnv emptyTx tx_a (exBucket 1%N BucketTypeUser "a")
           (stamped (exBucket 1%N BucketTypeUser "a")) 5%Z 6%Z).
  - apply toy_roundtrips.
  - apply I1_empty.
  - vm_compute. reflexivity.
  - intros k _. apply lookup_empty.
Qed.

Lemma I1_preserved_by_writes_witness :
  @I1 lossyEnv tx_a /\
  @I1 lossyEnv (fst (@UpdateBucket lossyEnv tx_a 1%N (mkBucketUpdate (Some "b") None None) 9%Z)) /\
  @I1 lossyEnv (fst (@DeleteBucket lossyEnv tx_a 1%N)).
Proof.
  destruct (@I1_preserved_by_writes lossyEnv emptyTx (I1_empty _)) as [Hc _].
  assert (Ha : @I1 lossyEnv tx_a).
  { apply (Hc (exBucket 1%N BucketTypeUser "a") 5%Z 6%Z tx_a
              (stamped (exBucket 1%N BucketTypeUser "a"))).
    - vm_compute. reflexivity.
    - apply lossy_roundtrips; reflexivity.
    - intros k _. apply lookup_empty. }
  destruct (@I1_preserved_by_writes lossyEnv tx_a Ha) as (_ & Hu & Hd).
  split; [exact Ha|]. split.
  - apply (Hu 1%N (mkBucketUpdate (Some "b") None None) 9%Z
              (fst (@UpdateBucket lossyEnv tx_a 1%N (mkBucketUpdate (Some "b") None None) 9%Z))
              (mkBucket 1%N org1 BucketTypeUser "b" "" 0%Z 5%Z 9%Z)).
    + vm_compute. reflexivity.
    + apply lossy_roundtrips; reflexivity.
  - apply (Hd 1%N). vm_compute. reflexivity.
Defined.

(** CreateBucket with the identifier of a bucket that is already stored, and
    a new name, overwrites the record and leaves the index entry of the old
    name behind. *)
Lemma CreateBucket_existing_ID_breaks_I1 :
  @I1 toyEnv tx_a /\
  @CreateBucket toyEnv tx_a (exBucket 1%N BucketTypeUser "z") 5%Z 6%Z
    = (tx_a_again, stamped (exBucket 1%N BucketTypeUser "z"), None) /\
  ~ @I1 toyEnv tx_a_again.
Proof.
  split; [exact I1_tx_a|]. split; [vm_compute; reflexivity|].
  intros [_ HI].
  destruct (HI "0000000000000001a" "0000000000000001") as (v & b & Hv & Hu & Hk).
  { vm_compute. reflexivity. }
  vm_compute in Hv. injection Hv as <-.
  vm_compute in Hu. injection Hu as <-.
  vm_compute in Hk. discriminate Hk.
Qed.

(** With a codec that rewrites the name, a CreateBucket with a fresh
    identifier succeeds and leaves an index entry under the name as given
    and a record under the name as rewritten: the bucket does not survive
    the codec, and the invariant is lost. *)
Lemma CreateBucket_rewritten_name_breaks_I1 :
  @I1 lossyEnv emptyTx /\
  @CreateBucket lossyEnv emptyTx (exBucket 1%N BucketTypeUser nameFF) 5%Z 6%Z
    = (tx_ff, stamped (exBucket 1%N BucketTypeUser nameFF), None) /\
  ~ @roundtrips lossyEnv (stamped (exBucket 1%N BucketTypeUser nameFF)) /\
  ~ @I1 lossyEnv tx_ff.
Proof.
  split; [apply I1_empty|]. split; [vm_compute; reflexivity|]. split.
  - intros Hrt.
    specialize (Hrt _ eq_refl). vm_compute in Hrt. discriminate Hrt.
  - intros [_ HI].
    destruct (HI ("0000000000000001" ++ nameFF) "0000000000000001")
      as (v & b & Hv & Hu & Hk).
    { vm_compute. reflexivity. }
    vm_compute in Hv. injection Hv as <-.
    vm_compute in Hu. injection Hu as <-.
    vm_compute in Hk. discriminate Hk.
Qed.

(** In that state the DeleteBucket of the bucket succeeds and removes the
    record, and the index entry stays: the key it deletes is built from the
    name as decoded. *)
Lemma DeleteBucket_rewritten_name_leaves_index :
  snd (@DeleteBucket lossyEnv tx_ff 1%N) = None /\
  tx_buckets (fst (@DeleteBucket lossyEnv tx_ff 1%N)) !! "0000000000000001" = None /\
  tx_index (fst (@DeleteBucket lossyEnv tx_ff 1%N)) !! ("0000000000000001" ++ nameFF)
    = Some "0000000000000001".
Proof. repeat split; vm_compute; reflexivity. Qed.

Lemma readable_noFault (m1 m2 : gmap string string) (b : BucketName) :
  readable (mkTx m1 m2 noFault) b.
Proof. split; [reflexivity|]. intros k. reflexivity. Qed.

Lemma toy_decodable (b : Bucket) : @decodable toyEnv b.
Proof. intros v Hm. exists b. split; [exact (toy_roundtrips b v Hm)|reflexivity]. Qed.

(** The instance whose codec rewrites the byte FF loses the name of this
    bucket, and still decodes what it wrote to a record with the same
    identifier. *)
Lemma lossy_decodable_FF : @decodable lossyEnv (stamped (exBucket 1%N BucketTypeUser nameFF)).
Proof.
  intros v Hm. vm_compute in Hm. injection Hm as <-.
  exists (stamped (exBucket 1%N BucketTypeUser nameFFFD)).
  split; vm_compute; reflexivity.
Qed.

Lemma CreateBucket_then_lookup_witness :
  (@GetBucketByName toyEnv (toyCreate emptyTx (exBucket 0%N BucketTypeUser "a")) org1 "a"
     = Ok (stamped (exBucket 4096%N BucketTypeUser "a")) /\
   @GetBucket toyEnv (toyCreate emptyTx (exBucket 0%N BucketTypeUser "a")) 4096%N
     = Ok (stamped (exBucket 4096%N BucketTypeUser "a"))) /\
  (exists r,
     @GetBucketByName lossyEnv tx_ff org1 nameFF = Ok r /\
     b_ID r = 1%N /\
     @GetBucket lossyEnv tx_ff (b_ID r) = Ok r).
Proof.
  split.
  - destruct (@CreateBucket_then_lookup toyEnv emptyTx
                (toyCreate emptyTx (exBucket 0%N BucketTypeUser "a"))
                (exBucket 0%N BucketTypeUser "a")
                (stamped (exBucket 4096%N BucketTypeUser "a")) 5%Z 6%Z)
      as (r & Hn & Hid & Hi & _ & _ & Hsame).
    + intros k. reflexivity.
    + apply toy_decodable.
    + vm_compute. reflexivity.
    + rewrite (Hsame (toy_roundtrips _)) in Hn, Hi. split; [exact Hn | exact Hi].
  - destruct (@CreateBucket_then_lookup lossyEnv emptyTx tx_ff
                (exBucket 1%N BucketTypeUser nameFF)
                (stamped (exBucket 1%N BucketTypeUser nameFF)) 5%Z 6%Z)
      as (r & Hn & Hid & Hi & _).
    + intros k. reflexivity.
    + exact lossy_decodable_FF.
    + vm_compute. reflexivity.
    + exists r. split; [exact Hn|]. split; [exact Hid | exact Hi].
Defined.

Lemma CreateBucket_duplicate_rejected_witness :
  exists bucket',
    @CreateBucket toyEnv tx_a (exBucket 0%N BucketTypeUser "a") 7%Z 8%Z
    = (tx_a, bucket', Some (BucketAlreadyExistsError "a")).
Proof.
  apply (@CreateBucket_duplicate_rejected toyEnv tx_a
           (stamped (exBucket 1%N BucketTypeUser "a"))
           (exBucket 0%N BucketTypeUser "a") 7%Z 8%Z).
  - split; [reflexivity|]. intros k. reflexivity.
  - exists "0000000000000001", (encN 1 (encN 1 (encType BucketTypeUser
             (encStr "a" (encStr "" (encZ 0 (encZ 5 (encZ 6 ""))))))))
           , "0000000000000001a".
    repeat split; vm_compute; reflexivity.
  - reflexivity.
  - reflexivity.
  - right. exists 4096%N. split; vm_compute; reflexivity.
Defined.

Lemma UpdateBucket_rename_system_forbidden_witness :
  @UpdateBucket toyEnv tx_sys 1%N (mkBucketUpdate (Some "new") None None) 9%Z
  = (tx_sys, Err errRenameSystemBucket).
Proof.
  apply (@UpdateBucket_rename_system_forbidden toyEnv tx_sys 1%N
           (mkBucketUpdate (Some "new") None None) 9%Z
           (stamped (exBucket 1%N BucketTypeSystem "sys")) "new").
  - vm_compute. reflexivity.
  - reflexivity.
  - reflexivity.
  - discriminate.
Defined.

Lemma GetBucketByName_miss_witness :
  (exists b, @GetBucketByName toyEnv emptyTx org1 "_monitoring" = Ok b /\
             b_Type b = BucketTypeSystem /\ b_ID b = 11%N /\
             b_RetentionPeriod b = 604800000000000%Z /\ b_OrgID b = org1) /\
  @GetBucketByName toyEnv emptyTx org1 "metrics" = Err (ErrBucketNotFoundByName "metrics").
Proof.
  split.
  - destruct (@GetBucketByName_miss toyEnv emptyTx org1 "_monitoring"
                "0000000000000001_monitoring") as (_ & Hm & _).
    + discriminate.
    + apply readable_noFault.
    + vm_compute. reflexivity.
    + apply lookup_empty.
    + destruct (Hm eq_refl) as (b & Hb & Hty & Hid & Hret & Horg & _).
      exists b. repeat split; assumption.
  - destruct (@GetBucketByName_miss toyEnv emptyTx org1 "metrics"
                "0000000000000001metrics") as (_ & _ & Hn).
    + discriminate.
    + apply readable_noFault.
    + vm_compute. reflexivity.
    + apply lookup_empty.
    + apply Hn; discriminate.
Defined.

Lemma DeleteBucket_then_lookups_witness :
  @GetBucket toyEnv (fst (@DeleteBucket toyEnv tx_a 1%N)) 1%N = Err ErrBucketNotFound /\
  @GetBucketByName toyEnv (fst (@DeleteBucket toyEnv tx_a 1%N)) org1 "a"
    = Err (ErrBucketNotFoundByName "a").
Proof.
  destruct (@DeleteBucket_then_lookups toyEnv tx_a (fst (@DeleteBucket toyEnv tx_a 1%N))
              1%N (stamped (exBucket 1%N BucketTypeUser "a")))
    as (Hg & _ & Hn).
  - split; [reflexivity|]. intros k. reflexivity.
  - vm_compute. reflexivity.
  - vm_compute. reflexivity.
  - split; [exact Hg|]. apply Hn; discriminate.
Defined.

(** A stored bucket may carry a reserved name; once it is deleted,
    GetBucketByName answers with the synthesized record for that name. *)
Lemma DeleteBucket_reserved_name_still_found :
  @GetBucket toyEnv tx_tasks 1%N = Ok (stamped (exBucket 1%N BucketTypeUser "_tasks")) /\
  snd (@DeleteBucket toyEnv tx_tasks 1%N) = None /\
  @GetBucketByName toyEnv (fst (@DeleteBucket toyEnv tx_tasks 1%N)) org1 "_tasks"
    = Ok (mkBucket 10%N org1 BucketTypeSystem "_tasks" "System bucket for task logs"
                   259200000000000%Z 0%Z 0%Z) /\
  @GetBucketByName toyEnv (fst (@DeleteBucket toyEnv tx_tasks 1%N)) org1 "_tasks"
    <> Err (ErrBucketNotFoundByName "_tasks").
Proof.
  repeat split; try (vm_compute; reflexivity).
  vm_compute. discriminate.
Qed.

(** With the zero identifier as OrganizationID the guard of ListBuckets does
    not fire. *)
Lemma ListBuckets_invalid_org_not_InvalidRequest :
  @ListBuckets toyEnv emptyTx (mkBucketFilter (Some "a") (Some 0%N)) []
    = ([], Some (EInvalidError (EInvalidError ErrInvalidID))) /\
  snd (@ListBuckets toyEnv emptyTx (mkBucketFilter (Some "a") (Some 0%N)) [])
    <> Some invalidBucketListRequest.
Proof. split; [vm_compute; reflexivity|]. vm_compute. discriminate. Qed.

(** C9, on the code as it is.  CreateBucket of a bucket with the empty name,
    on the empty store, returns success and writes both tables: the index
    entry sits under the bare organization key and the record can be read
    back. *)
Theorem CreateBucket_empty_name_accepted :
  @CreateBucket toyEnv emptyTx (exBucket 1%N BucketTypeUser "") 5%Z 6%Z
    = (tx_noname, stamped (exBucket 1%N BucketTypeUser ""), None) /\
  tx_index tx_noname !! "0000000000000001" = Some "0000000000000001" /\
  @GetBucket toyEnv tx_noname 1%N = Ok (stamped (exBucket 1%N BucketTypeUser "")).
Proof. repeat split; vm_compute; reflexivity. Qed.

(** C2, on the code as it is.  In an organization holding the three buckets
    a, b and c, ListBuckets by organization with Limit 2 returns a, b, and
    with Limit 2 and Descending it returns a, b again, not c, b; the scan of
    the primary table, without an organization, does return c, b when
    Descending is set. *)
Theorem ListBuckets_org_descending_not_reversed :
  map b_Name (fst (@ListBuckets toyEnv tx_abc (mkBucketFilter None (Some org1))
                     [mkFindOptions 2%Z 0%Z false])) = ["a"; "b"] /\
  map b_Name (fst (@ListBuckets toyEnv tx_abc (mkBucketFilter None (Some org1))
                     [mkFindOptions 2%Z 0%Z true])) = ["a"; "b"] /\
  map b_Name (fst (@ListBuckets toyEnv tx_abc (mkBucketFilter None None)
                     [mkFindOptions 2%Z 0%Z true])) = ["c"; "b"].
Proof. repeat split; vm_compute; reflexivity. Qed.

Lemma UpdateBucket_probe_failure_is_NameNotUnique_witness :
  uniqueBucketName tx_a_faulty org1 "b"
    = Some (ErrInternalServiceError (ErrStorage 7)) /\
  @UpdateBucket toyEnv tx_a_faulty 1%N (mkBucketUpdate (Some "b") None None) 9%Z
    = (tx_a_faulty, Err ErrBucketNameNotUnique).
Proof.
  split; [vm_compute; reflexivity|].
  apply (@UpdateBucket_probe_failure_is_NameNotUnique toyEnv tx_a_faulty 1%N
           (mkBucketUpdate (Some "b") None None) 9%Z
           (stamped (exBucket 1%N BucketTypeUser "a")) "b"
           (ErrInternalServiceError (ErrStorage 7))).
  - vm_compute. reflexivity.
  - discriminate.
  - reflexivity.
  - discriminate.
  - vm_compute. reflexivity.
Defined.

(** * Further properties of the store *)

(** ** More on keys *)

Lemma append_inj_length (a b x y : string) :
  String.length a = String.length b -> a ++ x = b ++ y -> a = b /\ x = y.
Proof.
  revert b. induction a as [|c a IH]; intros [|d b] Hlen Heq; try discriminate.
  - auto.
  - change (String c (a ++ x) = String d (b ++ y)) in Heq.
    injection Heq as -> Heq. injection Hlen as Hlen.
    destruct (IH b Hlen Heq) as [-> ->]. auto.
Qed.

Lemma Encode_inj (i j : ID) (k : string) : Encode i = Ok k -> Encode j = Ok k -> i = j.
Proof.
  intros Hi Hj. apply Decode_Encode in Hi, Hj. congruence.
Qed.

Lemma bucketIndexKey_Ok (o : ID) (n key : string) :
  bucketIndexKey o n = Ok key -> exists enc, Encode o = Ok enc /\ key = enc ++ n.
Proof.
  unfold bucketIndexKey. destruct (Encode o) as [enc|]; [|discriminate].
  intros Hk. injection Hk as <-. eauto.
Qed.

Lemma bucketIndexKey_same_key (o o' : ID) (n n' key : string) :
  bucketIndexKey o n = Ok key -> bucketIndexKey o' n' = Ok key -> o = o' /\ n = n'.
Proof.
  intros H1 H2.
  apply bucketIndexKey_Ok in H1 as (e1 & He1 & ->).
  apply bucketIndexKey_Ok in H2 as (e2 & He2 & Heq).
  apply append_inj_length in Heq as [-> ->].
  - split; [|reflexivity]. exact (Encode_inj _ _ _ He1 He2).
  - now rewrite (Encode_length _ _ He1), (Encode_length _ _ He2).
Qed.

(** X1.  bucketIndexKey is injective: once the key of (o, n) is built, the
    key of (o', n') is that same key exactly when o' = o and n' = n.  Two
    different (organization, name) pairs never share an index entry. *)
Theorem bucketIndexKey_inj (o o' : ID) (n n' key : string) :
  bucketIndexKey o n = Ok key ->
  (bucketIndexKey o' n' = Ok key <-> o' = o /\ n' = n).
Proof.
  intros H1. split.
  - intros H2. destruct (bucketIndexKey_same_key _ _ _ _ _ H1 H2). auto.
  - intros [-> ->]. exact H1.
Qed.

Section ReadFacts.
Context `{Env}.

(** X2.  When the index can be read and the key of (o, n) is built,
    uniqueBucketName returns nil exactly when the index holds nothing under
    that key, and BucketAlreadyExistsError exactly when it holds an entry;
    it returns nothing else. *)
Theorem uniqueBucketName_exact (tx : Tx) (o : ID) (n key : string) :
  readable tx bucketIndex ->
  bucketIndexKey o n = Ok key ->
  (uniqueBucketName tx o n = None <-> tx_index tx !! key = None) /\
  (uniqueBucketName tx o n = Some (BucketAlreadyExistsError n)
     <-> exists k, tx_index tx !! key = Some k) /\
  (uniqueBucketName tx o n = None \/
   uniqueBucketName tx o n = Some (BucketAlreadyExistsError n)).
Proof.
  intros [Hf Hg] Hk.
  destruct (tx_index tx !! key) as [k|] eqn:Hl.
  - rewrite (uniqueBucketName_taken tx o n key k Hk Hf (Hg key) Hl).
    repeat split; try discriminate; eauto.
  - assert (Hu : uniqueBucketName tx o n = None).
    { unfold uniqueBucketName. rewrite Hk, (bucketIndexKey_nonempty _ _ _ Hk).
      unfold tx_Bucket. rewrite Hf. unfold kv_Get. rewrite (Hg key). cbn [table].
      now rewrite Hl. }
    rewrite Hu. repeat split; try discriminate; auto.
    intros [k Hk']. discriminate.
Qed.

(** X3.  When the primary table can be read and the identifier encodes to
    the key k, GetBucket has three outcomes: it returns the bucket b exactly
    when the table holds under k a record that decodes to b; it fails with
    ErrBucketNotFound exactly when the table holds nothing under k; and it
    fails with ErrCorruptBucket exactly when the record under k does not
    decode. *)
Theorem GetBucket_outcomes (tx : Tx) (id : ID) (k : string) :
  readable tx bucketBucket ->
  Encode id = Ok k ->
  (forall b, GetBucket tx id = Ok b
     <-> exists v, tx_buckets tx !! k = Some v /\ json_Unmarshal v = Some b) /\
  (GetBucket tx id = Err ErrBucketNotFound <-> tx_buckets tx !! k = None) /\
  (GetBucket tx id = Err (ErrCorruptBucket ErrJSON)
     <-> exists v, tx_buckets tx !! k = Some v /\ json_Unmarshal v = None).
Proof.
  intros [Hf Hg] He.
  assert (Heq : GetBucket tx id =
            match tx_buckets tx !! k with
            | None => Err ErrBucketNotFound
            | Some v => match json_Unmarshal v with
                        | None => Err (ErrCorruptBucket ErrJSON)
                        | Some u => Ok u
                        end
            end).
  { unfold GetBucket. rewrite He. unfold tx_Bucket. rewrite Hf.
    unfold kv_Get. rewrite (Hg k). cbn [table].
    destruct (tx_buckets tx !! k); reflexivity. }
  rewrite Heq. clear Heq.
  destruct (tx_buckets tx !! k) as [v|].
  - destruct (json_Unmarshal v) as [u|] eqn:Hu.
    + split; [|split].
      * intros b. split.
        -- intros [= <-]. eauto.
        -- intros (v' & [= <-] & Hu'). congruence.
      * split; discriminate.
      * split; [discriminate|]. intros (v' & [= <-] & Hu'). congruence.
    + split; [|split].
      * intros b. split; [discriminate|]. intros (v' & [= <-] & Hu'). congruence.
      * split; discriminate.
      * split; eauto.
  - split; [|split].
    + intros b. split; [discriminate|]. intros (v' & Hv & _). discriminate.
    + split; auto.
    + split; [discriminate|]. intros (v' & Hv & _). discriminate.
Qed.

(** An invalid identifier is rejected before the engine is touched. *)
Lemma GetBucket_invalid (tx : Tx) (id : ID) :
  Valid id = false -> GetBucket tx id = Err (InvalidOrgIDError ErrInvalidID).
Proof. intros Hv. unfold GetBucket, Encode. now rewrite Hv. Qed.

(** X4.  For a bucket that is stored (its record under its encoded
    identifier, its index entry under its (OrgID, Name) pointing at that
    key), the lookup by identifier and the lookup by organization and name
    both return that very bucket, when both tables can be read. *)
Theorem stored_lookups_agree (tx : Tx) (b : Bucket) :
  readable tx bucketBucket ->
  readable tx bucketIndex ->
  stored tx b ->
  GetBucket tx (b_ID b) = Ok b /\
  GetBucketByName tx (b_OrgID b) (b_Name b) = Ok b.
Proof.
  intros [Hfb Hgb] [Hfi Hgi] (k & v & ik & He & Hl & Hu & Hik & Hil).
  assert (Hget : GetBucket tx (b_ID b) = Ok b)
    by (apply GetBucket_lookup with (k := k) (v := v); auto).
  split; [exact Hget|].
  unfold GetBucketByName. rewrite Hik. unfold tx_Bucket. rewrite Hfi.
  unfold kv_Get. rewrite (Hgi ik). cbn [table]. rewrite Hil.
  now rewrite (Decode_Encode _ _ He).
Qed.

(** X5.  When the index entry of (o, n) points at a key the primary table
    does not hold, GetBucketByName(o, n) fails with the ErrBucketNotFound of
    GetBucket, not with ErrBucketNotFoundByName, and the reserved names are
    not looked at. *)
Theorem GetBucketByName_dangling (tx : Tx) (o id : ID) (n key k : string) :
  readable tx bucketBucket ->
  readable tx bucketIndex ->
  bucketIndexKey o n = Ok key ->
  tx_index tx !! key = Some k ->
  Encode id = Ok k ->
  tx_buckets tx !! k = None ->
  GetBucketByName tx o n = Err ErrBucketNotFound.
Proof.
  intros [Hfb Hgb] [Hfi Hgi] Hk Hl He Hnone.
  unfold GetBucketByName. rewrite Hk. unfold tx_Bucket at 1. rewrite Hfi.
  unfold kv_Get at 1. rewrite (Hgi key). cbn [table]. rewrite Hl.
  rewrite (Decode_Encode _ _ He).
  apply GetBucket_missing with (k := k); auto.
Qed.

End ReadFacts.

Section UpdateResult.
Context `{Env}.

Lemma UpdateBucket_result (tx tx' : Tx) (id : ID) (upd : BucketUpdate)
    (now : Time) (b0 b' : Bucket) :
  GetBucket tx id = Ok b0 ->
  UpdateBucket tx id upd now = (tx', Ok b') ->
  b' = patched b0 upd now.
Proof.
  intros Hg. unfold UpdateBucket.
  destruct (Encode id) as [encodedID|]; [|discriminate].
  rewrite Hg. cbn zeta.
  set (bu := SetUpdatedAt b0 now).
  set (renamed := match upd_Name upd with Some _ => _ | None => _ end).
  assert (Hren : forall tx1 b1, renamed = (tx1, Ok b1) ->
            b1 = mkBucket (b_ID b0) (b_OrgID b0) (b_Type b0)
                   (match upd_Name upd with Some n => n | None => b_Name b0 end)
                   (b_Description b0) (b_RetentionPeriod b0) (b_CreatedAt b0) now).
  { intros tx1 b1. unfold renamed. clear renamed.
    destruct (upd_Name upd) as [name|].
    2:{ intros [= <- <-]. reflexivity. }
    change (b_Name bu) with (b_Name b0). change (b_OrgID bu) with (b_OrgID b0).
    change (b_Type bu) with (b_Type b0).
    destruct (String.eqb (b_Name b0) name) eqn:Heq.
    { apply String.eqb_eq in Heq. intros [= <- <-]. unfold bu, SetUpdatedAt.
      now rewrite Heq. }
    destruct (b_Type b0) eqn:Hty; [|discriminate].
    destruct (uniqueBucketName tx (b_OrgID b0) name); [discriminate|].
    destruct (tx_Bucket tx bucketIndex) as [idx|]; [|discriminate].
    destruct (bucketIndexKey (b_OrgID b0) (b_Name b0)) as [oldIkey|]; [|discriminate].
    destruct (kv_Delete tx idx oldIkey) as [tx2 [e|]]; [discriminate|].
    change (b_OrgID (setName bu name)) with (b_OrgID b0).
    change (b_Name (setName bu name)) with name.
    destruct (bucketIndexKey (b_OrgID b0) name) as [newIkey|]; [|discriminate].
    destruct (kv_Put tx2 idx newIkey encodedID) as [tx3 [e|]]; [discriminate|].
    intros [= <- <-]. unfold setName, bu, SetUpdatedAt. cbn. now rewrite Hty. }
  destruct renamed as [tx1 [b1|]]; [|discriminate].
  specialize (Hren tx1 b1 eq_refl). subst b1.
  unfold marshalBucket.
  match goal with |- context [json_Marshal ?x] => set (b3 := x) end.
  assert (Hb3 : b3 = patched b0 upd now).
  { unfold b3, patched. destruct (upd_RetentionPeriod upd), (upd_Description upd); reflexivity. }
  destruct (json_Marshal b3) as [v|]; [|discriminate].
  destruct (tx_Bucket tx1 bucketBucket) as [bb|]; [|discriminate].
  destruct (kv_Put tx1 bb encodedID v) as [tx2 [e|]]; [discriminate|].
  intros [= <- <-]. exact Hb3.
Qed.

End UpdateResult.

Section UpdateFacts.
Context `{Env}.

Lemma UpdateBucket_persisted (tx tx' : Tx) (id : ID) (upd : BucketUpdate)
    (now : Time) (b0 b' : Bucket) :
  roundtrips b' ->
  GetBucket tx id = Ok b0 ->
  UpdateBucket tx id upd now = (tx', Ok b') ->
  GetBucket tx' id = Ok b'.
Proof.
  intros Hrt Hg Hu.
  apply UpdateBucket_success in Hu
    as (encodedID & b1 & v & oldIkey & He & Hg1 & Hm & _ & _ & _ & Hcases).
  pose proof (Hrt v Hm) as Hdec.
  apply GetBucket_Ok in Hg as (k & v0 & He' & _ & _ & Hfb & Hgb).
  assert (k = encodedID) by congruence. subst k.
  assert (Hfault : tx_fault tx' = tx_fault tx /\ tx_buckets tx' !! encodedID = Some v).
  { destruct Hcases as [[_ ->] | (_ & _ & _ & newIkey & _ & _ & ->)];
      cbn [tx_fault tx_buckets]; (split; [reflexivity | apply lookup_insert_eq]). }
  destruct Hfault as [Hf Hl].
  apply GetBucket_lookup with (k := encodedID) (v := v); auto; congruence.
Qed.


(** X7.  After a successful UpdateBucket that renames a bucket from its name
    to a different name n2, the bucket keeps its identifier, the lookup by
    name finds it under n2, the index holds nothing under the key of the old
    name, and the lookup of the old name fails with ErrBucketNotFoundByName
    unless the old name is one of the two reserved names.  The renamed
    bucket is taken to survive the codec (with encoding/json: n2 and the
    Description are valid UTF-8) and the index to be readable. *)
Theorem UpdateBucket_rename_lookups (tx tx' : Tx) (id : ID) (upd : BucketUpdate)
    (now : Time) (b0 b' : Bucket) (n2 : string) :
  roundtrips b' ->
  readable tx bucketIndex ->
  GetBucket tx id = Ok b0 ->
  upd_Name upd = Some n2 ->
  n2 <> b_Name b0 ->
  UpdateBucket tx id upd now = (tx', Ok b') ->
  b_Name b' = n2 /\ b_ID b' = b_ID b0 /\
  GetBucketByName tx' (b_OrgID b0) n2 = Ok b' /\
  (exists old, bucketIndexKey (b_OrgID b0) (b_Name b0) = Ok old /\
               tx_index tx' !! old = None) /\
  (b_Name b0 <> TasksSystemBucketName ->
   b_Name b0 <> MonitoringSystemBucketName ->
   GetBucketByName tx' (b_OrgID b0) (b_Name b0)
   = Err (ErrBucketNotFoundByName (b_Name b0))).
Proof.
  intros Hrt [Hfi Hgi] Hg Hn Hne Hu.
  pose proof (UpdateBucket_result _ _ _ _ _ _ _ Hg Hu) as Hb'.
  pose proof (UpdateBucket_persisted _ _ _ _ _ _ _ Hrt Hg Hu) as Hget.
  assert (Hname : b_Name b' = n2) by (rewrite Hb'; unfold patched; cbn; now rewrite Hn).
  apply UpdateBucket_success in Hu
    as (encodedID & b1 & v & oldIkey & He & Hg1 & Hm & Hid & _ & _ & Hcases).
  assert (b1 = b0) by congruence. subst b1.
  destruct Hcases as [[Hsame _] | (_ & _ & Hko & newIkey & Hkn & Hfree & ->)];
    [congruence|].
  rewrite Hname in Hkn.
  assert (Hkeys : oldIkey <> newIkey).
  { intros ->. destruct (bucketIndexKey_same_key _ _ _ _ _ Hko Hkn) as [_ Heq]. congruence. }
  assert (Hr' : readable (mkTx (<[encodedID := v]> (tx_buckets tx))
                   (<[newIkey := encodedID]> (delete oldIkey (tx_index tx)))
                   (tx_fault tx)) bucketIndex) by (split; auto).
  assert (Hgone : tx_index (mkTx (<[encodedID := v]> (tx_buckets tx))
                   (<[newIkey := encodedID]> (delete oldIkey (tx_index tx)))
                   (tx_fault tx)) !! oldIkey = None).
  { cbn [tx_index]. rewrite lookup_insert_ne by congruence. apply lookup_delete_eq. }
  repeat split; auto.
  - unfold GetBucketByName. rewrite Hkn. unfold tx_Bucket at 1. cbn [tx_fault].
    rewrite Hfi. unfold kv_Get at 1. cbn [tx_fault table tx_index]. rewrite (Hgi newIkey).
    rewrite lookup_insert_eq. rewrite (Decode_Encode _ _ He). exact Hget.
  - exists oldIkey. auto.
  - intros Hn1 Hn2.
    rewrite (GetBucketByName_on_miss _ _ _ oldIkey Hr' Hko Hgone).
    apply String.eqb_neq in Hn1, Hn2. now rewrite Hn1, Hn2.
Qed.

(** X8.  An UpdateBucket whose patch carries no name, or the name the bucket
    already has, leaves the index as it was, whether it succeeds or fails
    and whatever the engine does. *)
Theorem UpdateBucket_no_rename_keeps_index (tx : Tx) (id : ID) (upd : BucketUpdate)
    (now : Time) :
  (forall b0 n, GetBucket tx id = Ok b0 -> upd_Name upd = Some n -> n = b_Name b0) ->
  tx_index (fst (UpdateBucket tx id upd now)) = tx_index tx.
Proof.
  intros Hsame. unfold UpdateBucket.
  destruct (Encode id) as [encodedID|]; [|reflexivity].
  destruct (GetBucket tx id) as [b0|] eqn:Hg; [|reflexivity].
  cbn zeta.
  destruct (upd_Name upd) as [name|] eqn:Hn.
  - rewrite (Hsame b0 name eq_refl eq_refl) in *.
    change (b_Name (SetUpdatedAt b0 now)) with (b_Name b0).
    rewrite String.eqb_refl.
    destruct (marshalBucket _) as [v|]; [|reflexivity].
    destruct (tx_Bucket tx bucketBucket) as [bb|] eqn:Hbb; [|reflexivity].
    apply tx_Bucket_Ok in Hbb as [-> _].
    unfold kv_Put. destruct (tx_fault tx (OpPut bucketBucket encodedID)); reflexivity.
  - destruct (marshalBucket _) as [v|]; [|reflexivity].
    destruct (tx_Bucket tx bucketBucket) as [bb|] eqn:Hbb; [|reflexivity].
    apply tx_Bucket_Ok in Hbb as [-> _].
    unfold kv_Put. destruct (tx_fault tx (OpPut bucketBucket encodedID)); reflexivity.
Qed.

(** X9.  When the primary table can be read: on an identifier whose key the
    table does not hold, UpdateBucket and DeleteBucket both fail with
    ErrBucketNotFound, the error of GetBucket; on an identifier that is not
    valid, UpdateBucket fails with the bare ErrInvalidID, since it encodes
    the identifier itself before it loads the bucket and returns the error
    of Encode as it is, and DeleteBucket fails with the InvalidOrgIDError
    that wraps ErrInvalidID, since it loads the bucket first and returns the
    error of GetBucket.  In all four cases the transaction is returned
    unchanged. *)
Theorem writes_on_missing_or_invalid_id (tx : Tx) (id : ID) (upd : BucketUpdate) (now : Time) :
  readable tx bucketBucket ->
  (forall k, Encode id = Ok k -> tx_buckets tx !! k = None ->
     UpdateBucket tx id upd now = (tx, Err ErrBucketNotFound) /\
     DeleteBucket tx id = (tx, Some ErrBucketNotFound)) /\
  (Valid id = false ->
     UpdateBucket tx id upd now = (tx, Err ErrInvalidID) /\
     DeleteBucket tx id = (tx, Some (InvalidOrgIDError ErrInvalidID))).
Proof.
  intros [Hf Hg]. split.
  - intros k He Hl.
    assert (Hget : GetBucket tx id = Err ErrBucketNotFound)
      by (apply GetBucket_missing with (k := k); auto).
    unfold UpdateBucket, DeleteBucket. now rewrite He, Hget.
  - intros Hv. unfold UpdateBucket, DeleteBucket.
    rewrite (GetBucket_invalid _ _ Hv). unfold Encode. now rewrite Hv.
Qed.

End UpdateFacts.

Section CreateDeleteFacts.
Context `{Env}.

(** X10.  DeleteBucket undoes CreateBucket: after a successful create on a
    transaction whose engine does not fail, with an identifier that was not
    yet a key of the primary table, deleting the created bucket succeeds and
    gives back the very transaction the create started from, when the
    created bucket survives the codec (with encoding/json: when its Name and
    Description are valid UTF-8).  DeleteBucket builds the index key from
    the record it decodes, so a name the codec rewrites is not covered. *)
Theorem DeleteBucket_undoes_CreateBucket (tx tx' : Tx) (bucket bucket' : Bucket)
    (now1 now2 : Time) :
  roundtrips bucket' ->
  healthy tx ->
  CreateBucket tx bucket now1 now2 = (tx', bucket', None) ->
  (forall k, Encode (b_ID bucket') = Ok k -> tx_buckets tx !! k = None) ->
  DeleteBucket tx' (b_ID bucket') = (tx, None).
Proof.
  intros Hrt Hh Hc Hfresh.
  apply CreateBucket_success in Hc
    as (b0 & encodedID & v & ikey & _ & He & Hu & -> & Hm & Hk & _ & ->).
  pose proof (Hrt v Hm) as Hdec.
  apply uniqueBucketName_None in Hu as (key & Hkey & Hfree & _).
  assert (key = ikey) by congruence. subst key.
  set (b' := SetUpdatedAt (SetCreatedAt b0 now1) now2) in *.
  change (b_ID b') with (b_ID b0) in *.
  specialize (Hfresh _ He).
  set (tx' := mkTx _ _ _).
  assert (Hget : GetBucket tx' (b_ID b0) = Ok b').
  { apply GetBucket_lookup with (k := encodedID) (v := v); auto; try apply Hh.
    cbn [tx' tx_buckets]. apply lookup_insert_eq. }
  unfold DeleteBucket. rewrite Hget, He. subst tx'.
  unfold tx_Bucket. cbn [tx_fault]. rewrite !Hh.
  change (b_OrgID b') with (b_OrgID b0). change (b_Name b') with (b_Name b0).
  rewrite Hk. unfold kv_Delete. cbn [tx_fault table setTable tx_index tx_buckets].
  rewrite !Hh. cbn [tx_fault table setTable tx_index tx_buckets].
  rewrite !Hh.
  cbn [setTable table tx_buckets tx_index tx_fault].
  rewrite !delete_insert_eq, (delete_id _ _ Hfree), (delete_id _ _ Hfresh).
  destruct tx; reflexivity.
Qed.

(** X11.  A CreateBucket, UpdateBucket or DeleteBucket that returns an error
    leaves the primary table as it was: each of them writes the index before
    the primary table, and the write of the primary table is its last
    step. *)
Theorem failed_writes_keep_primary (tx : Tx) :
  (forall bucket now1 now2 tx' bucket' err,
     CreateBucket tx bucket now1 now2 = (tx', bucket', Some err) ->
     tx_buckets tx' = tx_buckets tx) /\
  (forall id upd now tx' err,
     UpdateBucket tx id upd now = (tx', Err err) -> tx_buckets tx' = tx_buckets tx) /\
  (forall id tx' err,
     DeleteBucket tx id = (tx', Some err) -> tx_buckets tx' = tx_buckets tx).
Proof.
  split; [|split].
  - intros bucket now1 now2 tx' bucket' err. unfold CreateBucket.
    destruct (if negb (Valid (b_ID bucket)) then _ else _) as [b0|];
      [|now intros [= <- _ _]].
    destruct (Encode (b_ID b0)) as [encodedID|]; [|now intros [= <- _ _]].
    destruct (uniqueBucketName tx (b_OrgID b0) (b_Name b0)); [now intros [= <- _ _]|].
    cbn zeta.
    destruct (tx_Bucket tx bucketIndex) as [idx|] eqn:Hidx; [|now intros [= <- _ _]].
    apply tx_Bucket_Ok in Hidx as [-> _].
    destruct (tx_Bucket tx bucketBucket) as [bb|] eqn:Hbb; [|now intros [= <- _ _]].
    apply tx_Bucket_Ok in Hbb as [-> _].
    destruct (marshalBucket _) as [v|]; [|now intros [= <- _ _]].
    destruct (bucketIndexKey _ _) as [ikey|]; [|now intros [= <- _ _]].
    destruct (kv_Put tx bucketIndex ikey encodedID) as [tx1 [e1|]] eqn:Hp1.
    { apply kv_Put_Some in Hp1. subst tx1. now intros [= <- _ _]. }
    apply kv_Put_None in Hp1. subst tx1.
    destruct (kv_Put _ bucketBucket encodedID v) as [tx2 [e2|]] eqn:Hp2; [|discriminate].
    apply kv_Put_Some in Hp2. subst tx2. now intros [= <- _ _].
  - intros id upd now tx' err. unfold UpdateBucket.
    destruct (Encode id) as [encodedID|]; [|now intros [= <- _]].
    destruct (GetBucket tx id) as [b0|]; [|now intros [= <- _]].
    cbn zeta.
    set (renamed := match upd_Name upd with Some _ => _ | None => _ end).
    assert (Hren : tx_buckets (fst renamed) = tx_buckets tx /\
                   tx_fault (fst renamed) = tx_fault tx).
    { unfold renamed. clear renamed.
      destruct (upd_Name upd) as [name|]; [|auto].
      destruct (String.eqb _ name); [auto|].
      destruct (b_Type _); [|auto].
      destruct (uniqueBucketName _ _ _); [auto|].
      destruct (tx_Bucket tx bucketIndex) as [idx|] eqn:Hidx; [|auto].
      apply tx_Bucket_Ok in Hidx as [-> _].
      destruct (bucketIndexKey _ _) as [oldIkey|]; [|auto].
      destruct (kv_Delete tx bucketIndex oldIkey) as [tx1 [e|]] eqn:Hd.
      { apply kv_Delete_Some in Hd. subst tx1. auto. }
      apply kv_Delete_None in Hd. subst tx1.
      destruct (bucketIndexKey _ _) as [newIkey|]; [|auto].
      destruct (kv_Put _ bucketIndex newIkey encodedID) as [tx2 [e|]] eqn:Hp.
      { apply kv_Put_Some in Hp. subst tx2. auto. }
      apply kv_Put_None in Hp. subst tx2. auto. }
    destruct renamed as [tx1 [b1|e1]]; cbn [fst] in Hren; destruct Hren as [Hb Hf];
      [|now intros [= <- _]].
    destruct (marshalBucket _) as [v|]; [|now intros [= <- _]].
    destruct (tx_Bucket tx1 bucketBucket) as [bb|] eqn:Hbb; [|now intros [= <- _]].
    apply tx_Bucket_Ok in Hbb as [-> _].
    destruct (kv_Put tx1 bucketBucket encodedID v) as [tx2 [e|]] eqn:Hp; [|discriminate].
    apply kv_Put_Some in Hp. subst tx2. now intros [= <- _].
  - intros id tx' err. unfold DeleteBucket.
    destruct (GetBucket tx id) as [b0|]; [|now intros [= <- _]].
    destruct (Encode id) as [encodedID|]; [|now intros [= <- _]].
    destruct (tx_Bucket tx bucketIndex) as [idx|] eqn:Hidx; [|now intros [= <- _]].
    apply tx_Bucket_Ok in Hidx as [-> _].
    destruct (bucketIndexKey _ _) as [ikey|]; [|now intros [= <- _]].
    destruct (kv_Delete tx bucketIndex ikey) as [tx1 [e|]] eqn:Hd.
    { apply kv_Delete_Some in Hd. subst tx1. now intros [= <- _]. }
    apply kv_Delete_None in Hd. subst tx1.
    destruct (tx_Bucket _ bucketBucket) as [bb|] eqn:Hbb; [|now intros [= <- _]].
    apply tx_Bucket_Ok in Hbb as [-> _].
    destruct (kv_Delete _ bucketBucket encodedID) as [tx2 [e|]] eqn:Hd2; [|discriminate].
    apply kv_Delete_Some in Hd2. subst tx2. now intros [= <- _].
Qed.

(** X12.  A CreateBucket that returns an error either returns the very
    transaction it was given, or the error is the ErrInternalServiceError of
    a failed Put on the primary table: that is the one failure that leaves
    the index entry behind with no record. *)
Theorem CreateBucket_failure_no_partial_write (tx tx' : Tx) (bucket bucket' : Bucket)
    (now1 now2 : Time) (err : Error) :
  CreateBucket tx bucket now1 now2 = (tx', bucket', Some err) ->
  tx' = tx \/
  (exists n k, err = ErrInternalServiceError (ErrStorage n) /\
               Encode (b_ID bucket') = Ok k /\
               tx_fault tx (OpPut bucketBucket k) = Some n).
Proof.
  unfold CreateBucket.
  destruct (if negb (Valid (b_ID bucket)) then _ else _) as [b0|];
    [|intros [= <- _ _]; now left].
  destruct (Encode (b_ID b0)) as [encodedID|] eqn:He; [|intros [= <- _ _]; now left].
  destruct (uniqueBucketName tx (b_OrgID b0) (b_Name b0)); [intros [= <- _ _]; now left|].
  cbn zeta.
  destruct (tx_Bucket tx bucketIndex) as [idx|] eqn:Hidx; [|intros [= <- _ _]; now left].
  apply tx_Bucket_Ok in Hidx as [-> _].
  destruct (tx_Bucket tx bucketBucket) as [bb|] eqn:Hbb; [|intros [= <- _ _]; now left].
  apply tx_Bucket_Ok in Hbb as [-> _].
  destruct (marshalBucket _) as [v|]; [|intros [= <- _ _]; now left].
  destruct (bucketIndexKey _ _) as [ikey|]; [|intros [= <- _ _]; now left].
  destruct (kv_Put tx bucketIndex ikey encodedID) as [tx1 [e1|]] eqn:Hp1.
  { apply kv_Put_Some in Hp1. subst tx1. intros [= <- _ _]. now left. }
  apply kv_Put_None in Hp1. subst tx1.
  unfold kv_Put. cbn [setTable tx_fault].
  destruct (tx_fault tx (OpPut bucketBucket encodedID)) as [n|] eqn:Hf; [|discriminate].
  intros [= <- <- <-]. right. exists n, encodedID. auto.
Qed.

(** X13.  A successful CreateBucket keeps a valid identifier supplied by the
    caller, leaves the bucket with a valid identifier, with CreatedAt and
    UpdatedAt set to the two times of the call, keeps every index entry
    there was and adds exactly one, and keeps every primary record stored
    under another key. *)
Theorem CreateBucket_success_adds_one (tx tx' : Tx) (bucket bucket' : Bucket)
    (now1 now2 : Time) :
  CreateBucket tx bucket now1 now2 = (tx', bucket', None) ->
  (Valid (b_ID bucket) = true -> b_ID bucket' = b_ID bucket) /\
  Valid (b_ID bucket') = true /\
  b_CreatedAt bucket' = now1 /\ b_UpdatedAt bucket' = now2 /\
  (forall ik k, tx_index tx !! ik = Some k -> tx_index tx' !! ik = Some k) /\
  size (tx_index tx') = S (size (tx_index tx)) /\
  (forall k v, tx_buckets tx !! k = Some v -> Encode (b_ID bucket') <> Ok k ->
     tx_buckets tx' !! k = Some v).
Proof.
  intros Hc.
  apply CreateBucket_success in Hc
    as (b0 & encodedID & v & ikey & Hid & He & Hu & -> & Hm & Hk & _ & ->).
  apply uniqueBucketName_None in Hu as (key & Hkey & Hfree & _).
  assert (key = ikey) by congruence. subst key.
  cbn [b_ID b_CreatedAt b_UpdatedAt SetUpdatedAt SetCreatedAt tx_index tx_buckets].
  repeat split.
  - intros Hv. destruct Hid as [[_ ->] | [Hv' _]]; [reflexivity|congruence].
  - unfold Encode in He. destruct (Valid (b_ID b0)); [reflexivity|discriminate].
  - intros ik k Hl. rewrite lookup_insert_ne; [assumption|]. intros ->. congruence.
  - now apply map_size_insert_None.
  - intros k v' Hl Hne. rewrite lookup_insert_ne; [assumption|]. intros ->.
    apply Hne. exact He.
Qed.

End CreateDeleteFacts.

(** ** The cursor *)

Lemma takeWhile_In {A : Type} (f : A -> bool) (l : list A) (x : A) :
  In x (takeWhile f l) -> In x l /\ f x = true.
Proof.
  induction l as [|y l IH]; cbn [takeWhile]; [contradiction|].
  destruct (f y) eqn:Hf; [|contradiction].
  intros [<- | Hin]; [split; [now left | assumption]|].
  destruct (IH Hin). split; [now right | assumption].
Qed.

Lemma dropWhile_In {A : Type} (f : A -> bool) (l : list A) (x : A) :
  In x (dropWhile f l) -> In x l.
Proof.
  induction l as [|y l IH]; cbn [dropWhile]; [contradiction|].
  destruct (f y); [|auto]. intros Hin. right. auto.
Qed.

Lemma sortedEntries_In (m : gmap string string) (k v : string) :
  In (k, v) (sortedEntries m) -> m !! k = Some v.
Proof.
  intros Hin. apply list_elem_of_In in Hin. unfold sortedEntries in Hin.
  rewrite merge_sort_Permutation in Hin. now apply elem_of_map_to_list in Hin.
Qed.

Lemma prefix_append (p s : string) :
  String.prefix p s = true -> exists rest, s = p ++ rest.
Proof.
  revert s. induction p as [|c p IH]; intros s.
  - intros _. exists s. reflexivity.
  - destruct s as [|d s]; cbn [String.prefix]; [discriminate|].
    destruct (ascii_dec c d) as [->|]; [|discriminate].
    intros Hp. destruct (IH s Hp) as [rest ->]. exists rest. reflexivity.
Qed.

Lemma ForwardCursor_entries (tx : Tx) (b : BucketName) (seek : string)
    (dir : CursorDirection) (prefix : option string) (es : list (string * string))
    (k v : string) :
  ForwardCursor tx b seek dir prefix = Ok es ->
  In (k, v) es ->
  table tx b !! k = Some v /\
  (forall p, prefix = Some p -> exists rest, k = p ++ rest).
Proof.
  unfold ForwardCursor. destruct (tx_fault tx (OpCursor b)); [discriminate|].
  intros [= <-] Hin.
  assert (Hfrom : forall from,
            from = match dir with
                   | CursorAscending =>
                       dropWhile (fun e => String.ltb (fst e) seek) (sortedEntries (table tx b))
                   | CursorDescending =>
                       dropWhile (fun e => negb (String.eqb seek "") && String.ltb seek (fst e))
                                 (rev (sortedEntries (table tx b)))
                   end ->
            In (k, v) from -> table tx b !! k = Some v).
  { intros from -> Hf. apply sortedEntries_In.
    destruct dir; apply dropWhile_In in Hf; [assumption|]. now apply in_rev. }
  cbn zeta in Hin. destruct prefix as [p|].
  - apply takeWhile_In in Hin as [Hin Hp]. split.
    + eapply Hfrom; [reflexivity|exact Hin].
    + intros p' [= <-]. cbn [fst] in Hp. now apply prefix_append.
  - split; [eapply Hfrom; [reflexivity|exact Hin]|]. discriminate.
Qed.

Section ListBounds.
Context `{Env}.

Lemma listBucketsByOrg_loop_bound (tx : Tx) (o : FindOptions) (es : list (string * string)) :
  forall count bs bs',
    listBucketsByOrg_loop tx o es count bs = Ok bs' ->
    (Z.of_nat (length bs') <= Z.max (Z.of_nat (length bs) + 1) (Limit o))%Z.
Proof.
  induction es as [|[k v] es IH]; intros count bs bs'; cbn [listBucketsByOrg_loop].
  - intros [= <-]. lia.
  - destruct (negb (Offset o =? 0)%Z && (count <? Offset o)%Z); [apply IH|].
    destruct (Decode v) as [id|]; [|discriminate].
    destruct (GetBucket tx id) as [b|]; [|discriminate].
    destruct (Z.of_nat (length (bs ++ [b])) >=? Limit o)%Z eqn:Hlim.
    + intros [= <-]. rewrite length_app. cbn [length]. lia.
    + intros Hrec. apply IH in Hrec. rewrite Z.geb_leb in Hlim. apply Z.leb_gt in Hlim.
      lia.
Qed.

Lemma ListBuckets_loop_bound (filter : BucketFilter) (o : FindOptions)
    (es : list (string * string)) :
  forall count bs bs',
    ListBuckets_loop filter o es count bs = Ok bs' ->
    (Z.of_nat (length bs') <= Z.max (Z.of_nat (length bs) + 1) (Limit o))%Z.
Proof.
  induction es as [|[k v] es IH]; intros count bs bs'; cbn [ListBuckets_loop].
  - intros [= <-]. lia.
  - destruct (negb (Offset o =? 0)%Z && (count <? Offset o)%Z); [apply IH|].
    destruct (unmarshalBucket v) as [b|]; [|discriminate].
    cbn zeta.
    set (bs1 := match f_Name filter with
                | Some n => if String.eqb n (b_Name b) then (bs ++ [b])%list else bs
                | None => (bs ++ [b])%list
                end).
    assert (Hlen : (length bs1 <= length bs + 1)%nat).
    { unfold bs1. destruct (f_Name filter) as [n|]; [destruct (String.eqb n (b_Name b))|];
        rewrite ?length_app; cbn [length]; lia. }
    destruct (Z.of_nat (length bs1) >=? Limit o)%Z eqn:Hlim.
    + intros [= <-]. lia.
    + intros Hrec. apply IH in Hrec. rewrite Z.geb_leb in Hlim. apply Z.leb_gt in Hlim.
      lia.
Qed.

(** X14.  Whatever the filter, the options and the state, ListBuckets
    returns at most MaxPageSize buckets, and at most Limit buckets when the
    first option carries a limit between 1 and MaxPageSize.  MaxPageSize is
    taken to be at least 1. *)
Theorem ListBuckets_page_bound (tx : Tx) (filter : BucketFilter) (opt : list FindOptions) :
  (1 <= MaxPageSize)%Z ->
  (Z.of_nat (length (fst (ListBuckets tx filter opt))) <= MaxPageSize)%Z /\
  (forall o rest, opt = o :: rest -> (1 <= Limit o <= MaxPageSize)%Z ->
     (Z.of_nat (length (fst (ListBuckets tx filter opt))) <= Limit o)%Z).
Proof.
  intros Hmax.
  assert (Hgen : forall o0, match opt with [] => mkFindOptions DefaultPageSize 0%Z false
                                        | o :: _ => o end = o0 ->
            forall L, (L = if (Limit o0 >? MaxPageSize)%Z || (Limit o0 =? 0)%Z
                           then MaxPageSize else Limit o0) ->
            (Z.of_nat (length (fst (ListBuckets tx filter opt))) <= Z.max 1 L)%Z).
  { intros o0 Ho0 L HL. unfold ListBuckets.
    destruct (match f_OrganizationID filter, f_Name filter with
              | Some oid, Some _ => Valid oid | _, _ => false end);
      [cbn [fst length]; lia|].
    rewrite Ho0. cbn zeta.
    set (o := if (Limit o0 >? MaxPageSize)%Z || (Limit o0 =? 0)%Z
              then mkFindOptions MaxPageSize (Offset o0) (Descending o0) else o0).
    assert (HLo : Limit o = L).
    { unfold o. rewrite HL. destruct ((Limit o0 >? MaxPageSize)%Z || (Limit o0 =? 0)%Z);
        reflexivity. }
    destruct (f_OrganizationID filter) as [oid|].
    - unfold listBucketsByOrg.
      destruct (bucketIndexKey oid "") as [key|]; [|cbn [fst length]; lia].
      destruct (tx_Bucket tx bucketIndex) as [idx|]; [|cbn [fst length]; lia].
      destruct (ForwardCursor tx idx key CursorAscending (Some key)) as [cursor|];
        [|cbn [fst length]; lia].
      destruct (listBucketsByOrg_loop tx o cursor 0 []) as [bs|] eqn:Hloop;
        [|cbn [fst length]; lia].
      apply listBucketsByOrg_loop_bound in Hloop. cbn [fst length] in *. lia.
    - destruct (tx_Bucket tx bucketBucket) as [b|]; [|cbn [fst length]; lia].
      destruct (ForwardCursor tx b "" _ None) as [cursor|]; [|cbn [fst length]; lia].
      destruct (ListBuckets_loop filter o cursor 0 []) as [bs|] eqn:Hloop;
        [|cbn [fst length]; lia].
      apply ListBuckets_loop_bound in Hloop. cbn [fst length] in *. lia. }
  split.
  - specialize (Hgen _ eq_refl _ eq_refl).
    destruct ((Limit _ >? MaxPageSize)%Z || (Limit _ =? 0)%Z) eqn:Hc in Hgen; [lia|].
    apply orb_false_iff in Hc as [Hc _]. lia.
  - intros o rest -> Hlim. specialize (Hgen o eq_refl _ eq_refl).
    assert (Hc : (Limit o >? MaxPageSize)%Z || (Limit o =? 0)%Z = false).
    { apply orb_false_iff. split; lia. }
    rewrite Hc in Hgen. lia.
Qed.

End ListBounds.

Section ListMembers.
Context `{Env}.

Lemma ListBuckets_loop_members (P : Bucket -> Prop) (filter : BucketFilter)
    (o : FindOptions) (es : list (string * string)) :
  (forall k v b, In (k, v) es -> unmarshalBucket v = Ok b ->
     match f_Name filter with Some n => n = b_Name b | None => True end -> P b) ->
  forall count bs bs',
    Forall P bs ->
    ListBuckets_loop filter o es count bs = Ok bs' ->
    Forall P bs'.
Proof.
  induction es as [|[k v] es IH]; intros Hes count bs bs' Hbs; cbn [ListBuckets_loop].
  - now intros [= <-].
  - assert (Hes' : forall k v b, In (k, v) es -> unmarshalBucket v = Ok b ->
              match f_Name filter with Some n => n = b_Name b | None => True end -> P b)
      by (intros k0 v0 b0 Hin; apply (Hes k0 v0 b0); now right).
    destruct (negb (Offset o =? 0)%Z && (count <? Offset o)%Z); [now apply (IH Hes')|].
    destruct (unmarshalBucket v) as [b|] eqn:Hu; [|discriminate].
    cbn zeta.
    set (bs1 := match f_Name filter with
                | Some n => if String.eqb n (b_Name b) then (bs ++ [b])%list else bs
                | None => (bs ++ [b])%list
                end).
    assert (Hbs1 : Forall P bs1).
    { unfold bs1. specialize (Hes k v b (or_introl eq_refl) Hu).
      destruct (f_Name filter) as [n|].
      - destruct (String.eqb n (b_Name b)) eqn:Heq; [|assumption].
        apply String.eqb_eq in Heq. apply Forall_app. split; [assumption|].
        constructor; [auto|constructor].
      - apply Forall_app. split; [assumption|]. constructor; [auto|constructor]. }
    destruct (Z.of_nat (length bs1) >=? Limit o)%Z; [now intros [= <-]|].
    now apply (IH Hes').
Qed.

(** X15.  Every bucket that ListBuckets returns for a filter with a name
    and no organization has that name, and is the decoding of a record of
    the primary table. *)
Theorem ListBuckets_name_filter (tx : Tx) (n : string) (opt : list FindOptions) (b : Bucket) :
  In b (fst (ListBuckets tx (mkBucketFilter (Some n) None) opt)) ->
  b_Name b = n /\
  exists k v, tx_buckets tx !! k = Some v /\ json_Unmarshal v = Some b.
Proof.
  unfold ListBuckets. cbn [f_OrganizationID f_Name]. cbn zeta.
  destruct (tx_Bucket tx bucketBucket) as [bb|] eqn:Hbb; [|contradiction].
  apply tx_Bucket_Ok in Hbb as [-> _].
  match goal with |- context [ForwardCursor tx bucketBucket "" ?d None] =>
    destruct (ForwardCursor tx bucketBucket "" d None) as [cursor|] eqn:Hc;
      [|contradiction] end.
  match goal with |- context [ListBuckets_loop ?f ?o cursor 0%Z []] =>
    destruct (ListBuckets_loop f o cursor 0%Z []) as [bs|] eqn:Hloop; [|contradiction] end.
  cbn [fst]. intros Hin.
  eapply (ListBuckets_loop_members
            (fun b => b_Name b = n /\
               exists k v, tx_buckets tx !! k = Some v /\ json_Unmarshal v = Some b))
    in Hloop.
  - rewrite Forall_forall in Hloop. apply Hloop. now apply list_elem_of_In.
  - intros k v b0 Hk Hu Hn. cbn [f_Name] in Hn. split; [congruence|].
    destruct (ForwardCursor_entries _ _ _ _ _ _ _ _ Hc Hk) as [Hl _].
    exists k, v. split; [exact Hl|].
    unfold unmarshalBucket in Hu. destruct (json_Unmarshal v); [congruence|discriminate].
  - constructor.
Qed.

Lemma listBucketsByOrg_loop_members (P : Bucket -> Prop) (tx : Tx) (o : FindOptions)
    (es : list (string * string)) :
  (forall k v id b, In (k, v) es -> Decode v = Ok id -> GetBucket tx id = Ok b -> P b) ->
  forall count bs bs',
    Forall P bs ->
    listBucketsByOrg_loop tx o es count bs = Ok bs' ->
    Forall P bs'.
Proof.
  induction es as [|[k v] es IH]; intros Hes count bs bs' Hbs; cbn [listBucketsByOrg_loop].
  - now intros [= <-].
  - assert (Hes' : forall k v id b, In (k, v) es -> Decode v = Ok id ->
              GetBucket tx id = Ok b -> P b)
      by (intros k0 v0 id0 b0 Hin; apply (Hes k0 v0 id0 b0); now right).
    destruct (negb (Offset o =? 0)%Z && (count <? Offset o)%Z); [now apply (IH Hes')|].
    destruct (Decode v) as [id|] eqn:Hd; [|discriminate].
    destruct (GetBucket tx id) as [b|] eqn:Hg; [|discriminate].
    assert (Hbs1 : Forall P (bs ++ [b])).
    { apply Forall_app. split; [assumption|]. constructor; [|constructor].
      exact (Hes k v id b (or_introl eq_refl) Hd Hg). }
    destruct (Z.of_nat (length (bs ++ [b])) >=? Limit o)%Z; [now intros [= <-]|].
    now apply (IH Hes').
Qed.

Lemma append_empty_r (e : string) : e ++ "" = e.
Proof.
  induction e as [|c e IH]; [reflexivity|].
  change (String c (e ++ "") = String c e). now f_equal.
Qed.

(** X16.  In a state that satisfies invariant I1 and whose index values are
    encoded identifiers, every bucket that ListBuckets returns for a filter
    with an organization and no name belongs to that organization, is
    returned by GetBucket for some identifier, and has an index entry under
    the key of the organization and its name. *)
Theorem ListBuckets_by_org_members (tx : Tx) (org : ID) (opt : list FindOptions) (b : Bucket) :
  I1 tx ->
  index_canonical tx ->
  In b (fst (ListBuckets tx (mkBucketFilter None (Some org)) opt)) ->
  b_OrgID b = org /\
  (exists id, GetBucket tx id = Ok b) /\
  (exists ik k, bucketIndexKey org (b_Name b) = Ok ik /\ tx_index tx !! ik = Some k).
Proof.
  intros [HP HI] Hcan.
  unfold ListBuckets. cbn [f_OrganizationID f_Name]. cbn zeta.
  unfold listBucketsByOrg.
  destruct (bucketIndexKey org "") as [key|] eqn:Hkey; [|contradiction].
  destruct (tx_Bucket tx bucketIndex) as [idx|] eqn:Hidx; [|contradiction].
  apply tx_Bucket_Ok in Hidx as [-> Hfi].
  destruct (ForwardCursor tx bucketIndex key CursorAscending (Some key)) as [cursor|] eqn:Hc;
    [|contradiction].
  match goal with |- context [listBucketsByOrg_loop tx ?o cursor 0%Z []] =>
    destruct (listBucketsByOrg_loop tx o cursor 0%Z []) as [bs|] eqn:Hloop;
      [|contradiction] end.
  cbn [fst]. intros Hin.
  eapply (listBucketsByOrg_loop_members
            (fun b => b_OrgID b = org /\
               (exists id, GetBucket tx id = Ok b) /\
               (exists ik k, bucketIndexKey org (b_Name b) = Ok ik /\
                             tx_index tx !! ik = Some k)))
    in Hloop.
  - rewrite Forall_forall in Hloop. apply Hloop. now apply list_elem_of_In.
  - intros ik k id b0 Hk Hd Hg.
    destruct (ForwardCursor_entries _ _ _ _ _ _ _ _ Hc Hk) as [Hl Hpre].
    cbn [table] in Hl. destruct (Hpre key eq_refl) as [rest ->].
    destruct (Hcan _ _ Hl) as [id0 He0].
    assert (id = id0) by (apply Decode_Encode in He0; congruence). subst id0.
    destruct (HI _ _ Hl) as (v & b1 & Hv & Hu & Hk1).
    pose proof Hg as Hg'.
    apply GetBucket_Ok in Hg' as (k' & v' & He' & Hl' & Hu' & _).
    assert (k' = k) by congruence. subst k'.
    assert (b1 = b0) by congruence. subst b1.
    apply bucketIndexKey_Ok in Hkey as (enc & Henc & ->).
    rewrite append_empty_r in *.
    assert (Hik : bucketIndexKey org rest = Ok (enc ++ rest))
      by (unfold bucketIndexKey; now rewrite Henc).
    destruct (bucketIndexKey_same_key _ _ _ _ _ Hk1 Hik) as [Horg Hname].
    split; [exact Horg|]. split; [eauto|].
    exists (enc ++ rest), k. rewrite Hname. auto.
  - constructor.
Qed.

Lemma CreateBucket_keeps_index_canonical (tx tx' : Tx) (bucket bucket' : Bucket)
    (now1 now2 : Time) :
  index_canonical tx ->
  CreateBucket tx bucket now1 now2 = (tx', bucket', None) ->
  index_canonical tx'.
Proof.
  intros Hcan Hc.
  apply CreateBucket_success in Hc
    as (b0 & encodedID & v & ikey & _ & He & _ & _ & _ & _ & _ & ->).
  intros ik k. cbn [tx_index]. intros Hl.
  apply lookup_insert_Some in Hl as [[_ <-] | [_ Hl]]; [eauto|]. eapply Hcan; eauto.
Qed.

(** X17.  The three writes keep the values of the index encoded
    identifiers: from a state where every index value is the encoding of an
    identifier, a successful CreateBucket, UpdateBucket or DeleteBucket
    leaves such a state. *)
Theorem index_canonical_preserved (tx : Tx) :
  index_canonical tx ->
  (forall bucket now1 now2 tx' bucket',
      CreateBucket tx bucket now1 now2 = (tx', bucket', None) -> index_canonical tx') /\
  (forall id upd now tx' b',
      UpdateBucket tx id upd now = (tx', Ok b') -> index_canonical tx') /\
  (forall id tx', DeleteBucket tx id = (tx', None) -> index_canonical tx').
Proof.
  intros Hcan. split; [|split].
  - intros bucket now1 now2 tx' bucket' Hc.
    exact (CreateBucket_keeps_index_canonical _ _ _ _ _ _ Hcan Hc).
  - intros id upd now tx' b' Hu.
    apply UpdateBucket_success in Hu
      as (encodedID & b0 & v & oldIkey & He & _ & _ & _ & _ & _ & Hcases).
    destruct Hcases as [[_ ->] | (_ & _ & _ & newIkey & _ & _ & ->)];
      intros ik k; cbn [tx_index]; intros Hl.
    + eapply Hcan; eauto.
    + apply lookup_insert_Some in Hl as [[_ <-] | [_ Hl]]; [eauto|].
      apply lookup_delete_Some in Hl as [_ Hl]. eapply Hcan; eauto.
  - intros id tx' Hd.
    apply DeleteBucket_success in Hd as (b0 & encodedID & ikey & _ & _ & _ & _ & ->).
    intros ik k. cbn [tx_index]. intros Hl.
    apply lookup_delete_Some in Hl as [_ Hl]. eapply Hcan; eauto.
Qed.

End ListMembers.

(** ** The unfiltered listing *)

Lemma ltb_empty (k : string) : String.ltb k "" = false.
Proof. destruct k; reflexivity. Qed.

Lemma dropWhile_none {A : Type} (f : A -> bool) (l : list A) :
  (forall x, f x = false) -> dropWhile f l = l.
Proof. intros Hf. destruct l as [|x l]; cbn [dropWhile]; [|rewrite Hf]; reflexivity. Qed.

Lemma omap_rev {A B : Type} (f : A -> option B) (l : list A) :
  omap f (rev l) = rev (omap f l).
Proof.
  induction l as [|x l IH]; [reflexivity|].
  cbn [rev]. rewrite omap_app, IH. cbn [omap list_omap].
  destruct (f x); cbn [rev]; [reflexivity|now rewrite app_nil_r].
Qed.

Lemma In_sortedEntries (m : gmap string string) (k v : string) :
  m !! k = Some v -> In (k, v) (sortedEntries m).
Proof.
  intros Hl. apply list_elem_of_In. unfold sortedEntries.
  rewrite merge_sort_Permutation. now apply elem_of_map_to_list.
Qed.

Section ListingFacts.
Context `{Env}.

Lemma ListBuckets_loop_all (o : FindOptions) (es : list (string * string)) :
  (forall k v, In (k, v) es -> exists b, json_Unmarshal v = Some b) ->
  forall (count : Z) (bs : list Bucket),
  (0 <= count <= Offset o \/ Offset o < 0)%Z ->
  (Z.of_nat (List.length bs) < Limit o)%Z ->
  ListBuckets_loop (mkBucketFilter None None) o es count bs
  = Ok (bs ++ firstn (Z.to_nat (Limit o) - List.length bs)
                (skipn (Z.to_nat (Offset o - count))
                   (omap (fun e => json_Unmarshal (snd e)) es)))%list.
Proof.
  induction es as [|[k v] es IH]; intros Hdec count bs Hcount Hlen.
  - cbn [ListBuckets_loop omap list_omap]. rewrite skipn_nil, firstn_nil, app_nil_r.
    reflexivity.
  - cbn [ListBuckets_loop]. destruct (Hdec k v (or_introl eq_refl)) as [b Hb].
    assert (Hdec' : forall k v, In (k, v) es -> exists b, json_Unmarshal v = Some b).
    { intros k0 v0 Hin. apply (Hdec k0 v0). now right. }
    cbn [omap list_omap snd]. rewrite Hb.
    destruct (negb (Offset o =? 0)%Z && (count <? Offset o)%Z) eqn:Hskip.
    + apply andb_true_iff in Hskip as [_ Hlt]. apply Z.ltb_lt in Hlt.
      rewrite (IH Hdec' (count + 1)%Z bs); [|lia|assumption].
      replace (Z.to_nat (Offset o - count)) with (S (Z.to_nat (Offset o - (count + 1)))) by lia.
      reflexivity.
    + assert (Hz : Z.to_nat (Offset o - count) = 0%nat).
      { apply andb_false_iff in Hskip as [Hz | Hge].
        - apply negb_false_iff, Z.eqb_eq in Hz. lia.
        - apply Z.ltb_ge in Hge. lia. }
      rewrite Hz. cbn [skipn].
      unfold unmarshalBucket. rewrite Hb. cbn [f_Name].
      rewrite length_app. cbn [List.length].
      destruct (Z.of_nat (List.length bs + 1) >=? Limit o)%Z eqn:Hfull.
      * rewrite Z.geb_leb in Hfull. apply Z.leb_le in Hfull.
        replace (Z.to_nat (Limit o) - List.length bs)%nat with 1%nat by lia.
        cbn [firstn]. reflexivity.
      * rewrite Z.geb_leb in Hfull. apply Z.leb_gt in Hfull.
        rewrite (IH Hdec' count (bs ++ [b])%list); [| assumption | rewrite length_app; cbn [List.length]; lia].
        rewrite Hz. cbn [skipn]. rewrite length_app. cbn [List.length].
        replace (Z.to_nat (Limit o) - List.length bs)%nat
          with (S (Z.to_nat (Limit o) - (List.length bs + 1)))%nat by lia.
        cbn [firstn]. rewrite <- app_assoc. reflexivity.
Qed.

Lemma ListBuckets_unfiltered_eq (tx : Tx) (o : FindOptions) :
  healthy tx ->
  (forall k v, tx_buckets tx !! k = Some v -> exists b, json_Unmarshal v = Some b) ->
  (1 <= MaxPageSize)%Z ->
  (0 <= Limit o)%Z ->
  ListBuckets tx (mkBucketFilter None None) [o]
  = (firstn (Z.to_nat (pageLimit o))
       (skipn (Z.to_nat (Offset o))
          (if Descending o then rev (storedBuckets tx) else storedBuckets tx)),
     None).
Proof.
  intros Hh Hdec Hmax Hlim.
  unfold ListBuckets. cbn [f_OrganizationID f_Name].
  set (o' := if (Limit o >? MaxPageSize)%Z || (Limit o =? 0)%Z
             then mkFindOptions MaxPageSize (Offset o) (Descending o) else o).
  assert (Ho' : Limit o' = pageLimit o /\ Offset o' = Offset o /\ Descending o' = Descending o).
  { unfold o', pageLimit. destruct ((Limit o >? MaxPageSize)%Z || (Limit o =? 0)%Z); auto. }
  destruct Ho' as (HL & HO & HD).
  assert (Hpl : (1 <= pageLimit o)%Z).
  { unfold pageLimit. destruct ((Limit o >? MaxPageSize)%Z || (Limit o =? 0)%Z) eqn:Hc;
      [assumption|].
    apply orb_false_iff in Hc as [_ Hz]. apply Z.eqb_neq in Hz. lia. }
  unfold tx_Bucket, ForwardCursor, cursor_Err. rewrite !Hh. cbn [table].
  set (es := match (if Descending o' then CursorDescending else CursorAscending) with
             | CursorAscending => _
             | CursorDescending => _
             end).
  assert (Hes : es = if Descending o then rev (sortedEntries (tx_buckets tx))
                     else sortedEntries (tx_buckets tx)).
  { unfold es. rewrite HD. destruct (Descending o).
    - apply dropWhile_none. intros x. reflexivity.
    - apply dropWhile_none. intros x. apply ltb_empty. }
  rewrite (ListBuckets_loop_all o' es).
  - cbn [app List.length]. rewrite Nat.sub_0_r, Z.sub_0_r, HL, HO, Hes.
    unfold storedBuckets. destruct (Descending o); [rewrite omap_rev|]; reflexivity.
  - intros k v Hin. apply (Hdec k v). apply sortedEntries_In.
    rewrite Hes in Hin. destruct (Descending o); [apply in_rev in Hin|]; exact Hin.
  - rewrite HO. lia.
  - cbn [List.length]. lia.
Qed.

Lemma storedBuckets_In (tx : Tx) (b : Bucket) :
  In b (storedBuckets tx)
  <-> exists k v, tx_buckets tx !! k = Some v /\ json_Unmarshal v = Some b.
Proof.
  unfold storedBuckets. rewrite <- list_elem_of_In, list_elem_of_omap. split.
  - intros ([k v] & Hin & Hb). exists k, v. split; [|exact Hb].
    apply sortedEntries_In. now apply list_elem_of_In.
  - intros (k & v & Hl & Hb). exists (k, v). split; [|exact Hb].
    apply list_elem_of_In. now apply In_sortedEntries.
Qed.

Lemma omap_length_all {A B : Type} (f : A -> option B) (l : list A) :
  (forall x, In x l -> exists y, f x = Some y) ->
  List.length (omap f l) = List.length l.
Proof.
  induction l as [|x l IH]; intros Hall; [reflexivity|].
  cbn [omap list_omap]. destruct (Hall x (or_introl eq_refl)) as [y ->].
  cbn [List.length]. f_equal. apply IH. intros x' Hin. apply Hall. now right.
Qed.

Lemma storedBuckets_length (tx : Tx) :
  (forall k v, tx_buckets tx !! k = Some v -> exists b, json_Unmarshal v = Some b) ->
  List.length (storedBuckets tx) = size (tx_buckets tx).
Proof.
  intros Hdec. unfold storedBuckets. rewrite omap_length_all.
  - unfold sortedEntries. rewrite merge_sort_Permutation. apply length_map_to_list.
  - intros [k v] Hin. cbn [snd]. apply (Hdec k v). now apply sortedEntries_In.
Qed.

(** X18.  Paging of the unfiltered listing.  When the engine does not fail,
    every record of the primary table decodes, MaxPageSize is at least 1 and
    the limit asked for is not negative, ListBuckets with an empty filter
    returns, with no error, the stored buckets in ascending order of their
    keys, reversed when Descending is set, without the first Offset of them,
    cut after the limit, where a limit of 0 or above MaxPageSize counts as
    MaxPageSize.  The stored buckets are the decodings of the records of the
    primary table, one for each record. *)
Theorem ListBuckets_unfiltered_pages (tx : Tx) (o : FindOptions) :
  healthy tx ->
  (forall k v, tx_buckets tx !! k = Some v -> exists b, json_Unmarshal v = Some b) ->
  (1 <= MaxPageSize)%Z ->
  (0 <= Limit o)%Z ->
  ListBuckets tx (mkBucketFilter None None) [o]
  = (firstn (Z.to_nat (pageLimit o))
       (skipn (Z.to_nat (Offset o))
          (if Descending o then rev (storedBuckets tx) else storedBuckets tx)),
     None) /\
  (forall b, In b (storedBuckets tx)
     <-> exists k v, tx_buckets tx !! k = Some v /\ json_Unmarshal v = Some b) /\
  List.length (storedBuckets tx) = size (tx_buckets tx).
Proof.
  intros Hh Hdec Hmax Hlim. split; [|split].
  - exact (ListBuckets_unfiltered_eq tx o Hh Hdec Hmax Hlim).
  - intros b. apply storedBuckets_In.
  - exact (storedBuckets_length tx Hdec).
Qed.

(** X19.  The unfiltered listing misses nothing: under the assumptions of
    X18, with no offset and a limit that the number of records does not
    exceed, ListBuckets with an empty filter succeeds and returns a bucket
    exactly when it is the decoding of a record of the primary table. *)
Theorem ListBuckets_unfiltered_complete (tx : Tx) (o : FindOptions) (b : Bucket) :
  healthy tx ->
  (forall k v, tx_buckets tx !! k = Some v -> exists b, json_Unmarshal v = Some b) ->
  (1 <= MaxPageSize)%Z ->
  (0 <= Limit o)%Z ->
  (Offset o <= 0)%Z ->
  (Z.of_nat (size (tx_buckets tx)) <= pageLimit o)%Z ->
  snd (ListBuckets tx (mkBucketFilter None None) [o]) = None /\
  (In b (fst (ListBuckets tx (mkBucketFilter None None) [o]))
   <-> exists k v, tx_buckets tx !! k = Some v /\ json_Unmarshal v = Some b).
Proof.
  intros Hh Hdec Hmax Hlim Hoff Hsize.
  rewrite (ListBuckets_unfiltered_eq tx o Hh Hdec Hmax Hlim). cbn [fst snd].
  split; [reflexivity|].
  replace (Z.to_nat (Offset o)) with 0%nat by lia.
  rewrite firstn_all2.
  - rewrite skipn_O, <- storedBuckets_In. destruct (Descending o); [|reflexivity].
    symmetry. apply in_rev.
  - pose proof (storedBuckets_length tx Hdec) as Hl.
    destruct (Descending o); cbn iota; rewrite skipn_O; [rewrite List.length_rev|]; lia.
Qed.

End ListingFacts.

(** * The authorizing service *)

Section AuthorizerFacts.
Context `{Authorizer.Checks}.
Variable s : Authorizer.AuthorizationService.

(** X20.  VerifyPermissions returns nil exactly when IsAllowed accepts every
    permission of the list; when it returns an error, that error is the
    forbidden error built for the first permission of the list that
    IsAllowed rejects, wrapping the error of IsAllowed, and every permission
    before it is accepted. *)
Theorem VerifyPermissions_first_denied (ctx : Authorizer.Ctx)
    (ps : list Authorizer.Permission) :
  (Authorizer.VerifyPermissions ctx ps = None
     <-> forall p, In p ps -> Authorizer.IsAllowed ctx p = None) /\
  (forall err, Authorizer.VerifyPermissions ctx ps = Some err ->
     exists ps1 p ps2 cause,
       ps = (ps1 ++ p :: ps2)%list /\
       (forall q, In q ps1 -> Authorizer.IsAllowed ctx q = None) /\
       Authorizer.IsAllowed ctx p = Some cause /\
       err = Authorizer.PermissionNotAllowed p cause).
Proof.
  induction ps as [|p ps [IH1 IH2]]; cbn [Authorizer.VerifyPermissions].
  - split; [split; [contradiction|reflexivity]|discriminate].
  - destruct (Authorizer.IsAllowed ctx p) as [cause|] eqn:Hp.
    + split.
      * split; [discriminate|]. intros Hall. rewrite (Hall p (or_introl eq_refl)) in Hp.
        discriminate.
      * intros err [= <-]. exists [], p, ps, cause. repeat split; auto. contradiction.
    + split.
      * rewrite IH1. split.
        -- intros Hall q [<- | Hq]; auto.
        -- intros Hall q Hq. apply Hall. now right.
      * intros err Herr. destruct (IH2 err Herr) as (ps1 & q & ps2 & cause & -> & Hall & Hq & ->).
        exists (p :: ps1), q, ps2, cause. repeat split; auto.
        intros r [<- | Hr]; auto.
Qed.

Lemma VerifyPermissions_None (ctx : Authorizer.Ctx) (ps : list Authorizer.Permission) :
  Authorizer.VerifyPermissions ctx ps = None
  <-> forall p, In p ps -> Authorizer.IsAllowed ctx p = None.
Proof.
  induction ps as [|p ps IH]; cbn [Authorizer.VerifyPermissions].
  - split; [contradiction|reflexivity].
  - destruct (Authorizer.IsAllowed ctx p) as [cause|] eqn:Hp.
    + split; [discriminate|]. intros Hall. rewrite (Hall p (or_introl eq_refl)) in Hp.
      discriminate.
    + rewrite IH. split.
      * intros Hall q [<- | Hq]; auto.
      * intros Hall q Hq. apply Hall. now right.
Qed.

(** X21.  CreateAuthorization reaches the wrapped service exactly when
    AuthorizeCreate accepts the organization of the authorization and
    IsAllowed accepts every permission the authorization carries: then it
    returns what the wrapped service returns; otherwise it fails and leaves
    the state of the wrapped service as it was. *)
Theorem CreateAuthorization_gate (ctx : Authorizer.Ctx) (st : Authorizer.State)
    (a : Authorizer.Authorization) :
  let granted :=
    Authorizer.AuthorizeCreate ctx Authorizer.AuthorizationsResourceType
      (Authorizer.a_OrgID a) = None /\
    (forall p, In p (Authorizer.a_Permissions a) -> Authorizer.IsAllowed ctx p = None) in
  (granted ->
   Authorizer.CreateAuthorization s ctx st a
   = Authorizer.s_CreateAuthorization s ctx st a) /\
  (~ granted ->
   exists err, Authorizer.CreateAuthorization s ctx st a = (st, Some err)).
Proof.
  cbn zeta. unfold Authorizer.CreateAuthorization.
  destruct (Authorizer.AuthorizeCreate ctx _ _) as [e|] eqn:Hc.
  - split; [intros [Hn _]; discriminate|]. intros _. eauto.
  - destruct (Authorizer.VerifyPermissions ctx _) as [e|] eqn:Hv.
    + split; [|intros _; eauto].
      intros [_ Hall]. apply VerifyPermissions_None in Hall. congruence.
    + split; [reflexivity|]. intros Hng. exfalso. apply Hng. split; [reflexivity|].
      now apply VerifyPermissions_None.
Qed.

(** X22.  A FindAuthorizationByID that succeeds returns what the wrapped
    service found, and AuthorizeRead accepted it.  When the wrapped service
    finds the authorization and AuthorizeWrite rejects it, UpdateAuthorization
    and DeleteAuthorization both fail with the error of AuthorizeWrite, and
    when the wrapped lookup fails, all three fail with its error; in both
    cases the state is the one the lookup left, so the wrapped update and
    delete were not called. *)
Theorem read_write_gates (ctx : Authorizer.Ctx) (st st' : Authorizer.State) (id : ID) :
  (forall a, Authorizer.FindAuthorizationByID s ctx st id = (st', Ok a) ->
     Authorizer.s_FindAuthorizationByID s ctx st id = (st', Ok a) /\
     Authorizer.AuthorizeRead ctx Authorizer.AuthorizationsResourceType
       (Authorizer.a_ID a) (Authorizer.a_OrgID a) = None) /\
  (forall a err,
     Authorizer.s_FindAuthorizationByID s ctx st id = (st', Ok a) ->
     Authorizer.AuthorizeWrite ctx Authorizer.AuthorizationsResourceType
       (Authorizer.a_ID a) (Authorizer.a_OrgID a) = Some err ->
     (forall upd, Authorizer.UpdateAuthorization s ctx st id upd = (st', Err err)) /\
     Authorizer.DeleteAuthorization s ctx st id = (st', Some err)) /\
  (forall err,
     Authorizer.s_FindAuthorizationByID s ctx st id = (st', Err err) ->
     Authorizer.FindAuthorizationByID s ctx st id = (st', Err err) /\
     (forall upd, Authorizer.UpdateAuthorization s ctx st id upd = (st', Err err)) /\
     Authorizer.DeleteAuthorization s ctx st id = (st', Some err)).
Proof.
  unfold Authorizer.FindAuthorizationByID, Authorizer.UpdateAuthorization,
    Authorizer.DeleteAuthorization.
  destruct (Authorizer.s_FindAuthorizationByID s ctx st id) as [st1 [a1|e1]].
  - split; [|split].
    + intros a.
      destruct (Authorizer.AuthorizeRead ctx _ _ _) as [e|] eqn:Hr; [discriminate|].
      intros [= <- <-]. auto.
    + intros a err [= <- <-] Hw. rewrite Hw. auto.
    + intros err. discriminate.
  - split; [|split].
    + intros a. discriminate.
    + intros a err. discriminate.
    + intros err [= <- <-]. auto.
Qed.

End AuthorizerFacts.

(** * Examples for the further properties *)

Lemma I1_tx_abc : @I1 toyEnv tx_abc.
Proof.
  unfold tx_abc.
  eapply (@CreateBucket_preserves_I1 toyEnv _ _ (exBucket 3%N BucketTypeUser "c")
            (stamped (exBucket 3%N BucketTypeUser "c")) 5%Z 6%Z).
  - apply toy_roundtrips.
  - eapply (@CreateBucket_preserves_I1 toyEnv tx_a _ (exBucket 2%N BucketTypeUser "b")
              (stamped (exBucket 2%N BucketTypeUser "b")) 5%Z 6%Z).
    + apply toy_roundtrips.
    + exact I1_tx_a.
    + vm_compute. reflexivity.
    + intros k Hk. vm_compute in Hk. injection Hk as <-. vm_compute. reflexivity.
  - vm_compute. reflexivity.
  - intros k Hk. vm_compute in Hk. injection Hk as <-. vm_compute. reflexivity.
Qed.

Lemma index_canonical_empty (f : kvOp -> option nat) : index_canonical (mkTx ∅ ∅ f).
Proof. intros ik k Hl. cbn [tx_index] in Hl. now rewrite lookup_empty in Hl. Qed.

Lemma index_canonical_toyCreate (tx : Tx) (b : Bucket) :
  index_canonical tx ->
  snd (@CreateBucket toyEnv tx b 5%Z 6%Z) = None ->
  index_canonical (toyCreate tx b).
Proof.
  intros Hcan Hnone. unfold toyCreate.
  destruct (@CreateBucket toyEnv tx b 5%Z 6%Z) as [[tx' b'] e] eqn:Hc.
  cbn [snd] in Hnone. subst e. cbn [fst].
  exact (@CreateBucket_keeps_index_canonical toyEnv tx tx' b b' 5%Z 6%Z Hcan Hc).
Qed.

Lemma index_canonical_tx_abc : index_canonical tx_abc.
Proof.
  unfold tx_abc, tx_a.
  repeat (apply index_canonical_toyCreate; [|vm_compute; reflexivity]).
  apply index_canonical_empty.
Qed.

Lemma bucketIndexKey_inj_witness :
  bucketIndexKey 1%N "a" = Ok "0000000000000001a" <-> 1%N = 1%N /\ "a" = "a".
Proof.
  apply (bucketIndexKey_inj 1%N 1%N "a" "a" "0000000000000001a").
  vm_compute. reflexivity.
Defined.

Lemma uniqueBucketName_exact_witness :
  uniqueBucketName tx_a org1 "a" = Some (BucketAlreadyExistsError "a") /\
  uniqueBucketName tx_a org1 "b" = None.
Proof.
  split.
  - destruct (@uniqueBucketName_exact tx_a org1 "a" "0000000000000001a")
      as (_ & [_ Hex] & _).
    + apply readable_noFault.
    + vm_compute. reflexivity.
    + apply Hex. exists "0000000000000001". vm_compute. reflexivity.
  - destruct (@uniqueBucketName_exact tx_a org1 "b" "0000000000000001b")
      as ([_ Hnone] & _).
    + apply readable_noFault.
    + vm_compute. reflexivity.
    + apply Hnone. vm_compute. reflexivity.
Defined.

Lemma GetBucket_outcomes_witness :
  @GetBucket toyEnv tx_a 1%N = Ok (stamped (exBucket 1%N BucketTypeUser "a")) /\
  @GetBucket toyEnv tx_a 2%N = Err ErrBucketNotFound.
Proof.
  split.
  - destruct (@GetBucket_outcomes toyEnv tx_a 1%N "0000000000000001") as (Hok & _).
    + apply readable_noFault.
    + vm_compute. reflexivity.
    + apply Hok. eexists. split; vm_compute; reflexivity.
  - destruct (@GetBucket_outcomes toyEnv tx_a 2%N "0000000000000002") as (_ & [_ Hnf] & _).
    + apply readable_noFault.
    + vm_compute. reflexivity.
    + apply Hnf. vm_compute. reflexivity.
Defined.

Lemma stored_tx_a : @stored toyEnv tx_a (stamped (exBucket 1%N BucketTypeUser "a")).
Proof.
  exists "0000000000000001",
    (encN 1 (encN 1 (encType BucketTypeUser
       (encStr "a" (encStr "" (encZ 0 (encZ 5 (encZ 6 "")))))))),
    "0000000000000001a".
  repeat split; vm_compute; reflexivity.
Qed.

Lemma stored_lookups_agree_witness :
  @GetBucket toyEnv tx_a 1%N = Ok (stamped (exBucket 1%N BucketTypeUser "a")) /\
  @GetBucketByName toyEnv tx_a org1 "a" = Ok (stamped (exBucket 1%N BucketTypeUser "a")).
Proof.
  apply (@stored_lookups_agree toyEnv tx_a (stamped (exBucket 1%N BucketTypeUser "a"))).
  - apply readable_noFault.
  - apply readable_noFault.
  - exact stored_tx_a.
Defined.

Lemma GetBucketByName_dangling_witness :
  @GetBucketByName toyEnv tx_dangling org1 "a" = Err ErrBucketNotFound.
Proof.
  apply (@GetBucketByName_dangling toyEnv tx_dangling org1 5%N "a"
           "0000000000000001a" "0000000000000005").
  - apply readable_noFault.
  - apply readable_noFault.
  - vm_compute. reflexivity.
  - vm_compute. reflexivity.
  - vm_compute. reflexivity.
  - vm_compute. reflexivity.
Defined.


Lemma UpdateBucket_rename_lookups_witness :
  @GetBucketByName lossyEnv (fst (@UpdateBucket lossyEnv tx_a 1%N (renameTo "b") 9%Z)) org1 "b"
    = Ok (mkBucket 1%N org1 BucketTypeUser "b" "" 0%Z 5%Z 9%Z) /\
  @GetBucketByName lossyEnv (fst (@UpdateBucket lossyEnv tx_a 1%N (renameTo "b") 9%Z)) org1 "a"
    = Err (ErrBucketNotFoundByName "a").
Proof.
  destruct (@UpdateBucket_rename_lookups lossyEnv tx_a
              (fst (@UpdateBucket lossyEnv tx_a 1%N (renameTo "b") 9%Z))
              1%N (renameTo "b") 9%Z
              (stamped (exBucket 1%N BucketTypeUser "a"))
              (mkBucket 1%N org1 BucketTypeUser "b" "" 0%Z 5%Z 9%Z) "b")
    as (_ & _ & Hnew & _ & Hold).
  - apply lossy_roundtrips; reflexivity.
  - apply readable_noFault.
  - vm_compute. reflexivity.
  - reflexivity.
  - discriminate.
  - vm_compute. reflexivity.
  - split; [exact Hnew|]. apply Hold; discriminate.
Defined.

Lemma UpdateBucket_no_rename_keeps_index_witness :
  tx_index (fst (@UpdateBucket toyEnv tx_a 1%N
                   (mkBucketUpdate None (Some "logs") None) 9%Z)) = tx_index tx_a.
Proof.
  apply (@UpdateBucket_no_rename_keeps_index toyEnv tx_a 1%N
           (mkBucketUpdate None (Some "logs") None) 9%Z).
  intros b0 n _ Hn. discriminate Hn.
Defined.

Lemma writes_on_missing_or_invalid_id_witness :
  @UpdateBucket toyEnv tx_a 2%N (renameTo "b") 9%Z = (tx_a, Err ErrBucketNotFound) /\
  @DeleteBucket toyEnv tx_a 2%N = (tx_a, Some ErrBucketNotFound) /\
  @UpdateBucket toyEnv tx_a 0%N (renameTo "b") 9%Z = (tx_a, Err ErrInvalidID) /\
  @DeleteBucket toyEnv tx_a 0%N = (tx_a, Some (InvalidOrgIDError ErrInvalidID)).
Proof.
  destruct (@writes_on_missing_or_invalid_id toyEnv tx_a 2%N (renameTo "b") 9%Z
              (readable_noFault _ _ _)) as [Hmiss _].
  destruct (@writes_on_missing_or_invalid_id toyEnv tx_a 0%N (renameTo "b") 9%Z
              (readable_noFault _ _ _)) as [_ Hinv].
  destruct (Hmiss "0000000000000002") as [Hu Hd]; [vm_compute; reflexivity ..|].
  destruct (Hinv eq_refl) as [Hu' Hd'].
  repeat split; assumption.
Defined.

Lemma DeleteBucket_undoes_CreateBucket_witness :
  @DeleteBucket lossyEnv tx_a 1%N = (emptyTx, None).
Proof.
  apply (@DeleteBucket_undoes_CreateBucket lossyEnv emptyTx tx_a
           (exBucket 1%N BucketTypeUser "a") (stamped (exBucket 1%N BucketTypeUser "a"))
           5%Z 6%Z).
  - apply lossy_roundtrips; reflexivity.
  - exact emptyTx_healthy.
  - vm_compute. reflexivity.
  - intros k _. apply lookup_empty.
Defined.

Lemma failed_writes_keep_primary_witness :
  tx_buckets (fst (fst (@CreateBucket toyEnv tx_faulty_puts
                          (exBucket 1%N BucketTypeUser "a") 5%Z 6%Z))) = ∅ /\
  tx_index (fst (fst (@CreateBucket toyEnv tx_faulty_puts
                        (exBucket 1%N BucketTypeUser "a") 5%Z 6%Z)))
    !! "0000000000000001a" = Some "0000000000000001".
Proof.
  destruct (@failed_writes_keep_primary toyEnv tx_faulty_puts) as (Hc & _ & _).
  split; [|vm_compute; reflexivity].
  apply (Hc (exBucket 1%N BucketTypeUser "a") 5%Z 6%Z _
            (stamped (exBucket 1%N BucketTypeUser "a"))
            (ErrInternalServiceError (ErrStorage 9))).
  vm_compute. reflexivity.
Defined.

Lemma CreateBucket_failure_no_partial_write_witness :
  fst (fst (@CreateBucket toyEnv tx_a (exBucket 2%N BucketTypeUser "a") 5%Z 6%Z)) = tx_a.
Proof.
  destruct (@CreateBucket_failure_no_partial_write toyEnv tx_a
              (fst (fst (@CreateBucket toyEnv tx_a (exBucket 2%N BucketTypeUser "a") 5%Z 6%Z)))
              (exBucket 2%N BucketTypeUser "a") (exBucket 2%N BucketTypeUser "a")
              5%Z 6%Z (BucketAlreadyExistsError "a"))
    as [Heq | (n & k & Herr & _)].
  - vm_compute. reflexivity.
  - exact Heq.
  - discriminate Herr.
Defined.

Lemma CreateBucket_success_adds_one_witness :
  size (tx_index tx_abc) = S (size (tx_index (toyCreate tx_a (exBucket 2%N BucketTypeUser "b")))) /\
  tx_index tx_abc !! "0000000000000001a" = Some "0000000000000001".
Proof.
  destruct (@CreateBucket_success_adds_one toyEnv
              (toyCreate tx_a (exBucket 2%N BucketTypeUser "b")) tx_abc
              (exBucket 3%N BucketTypeUser "c") (stamped (exBucket 3%N BucketTypeUser "c"))
              5%Z 6%Z)
    as (_ & _ & _ & _ & Hkeep & Hsize & _).
  - vm_compute. reflexivity.
  - split; [exact Hsize|]. apply Hkeep. vm_compute. reflexivity.
Defined.

Lemma ListBuckets_page_bound_witness :
  (Z.of_nat (length (fst (@ListBuckets toyEnv tx_abc (mkBucketFilter None None) []))) <= 100)%Z /\
  (Z.of_nat (length (fst (@ListBuckets toyEnv tx_abc (mkBucketFilter None None)
                             [mkFindOptions 2%Z 0%Z false]))) <= 2)%Z.
Proof.
  split.
  - apply (@ListBuckets_page_bound toyEnv tx_abc (mkBucketFilter None None) []).
    cbn. lia.
  - destruct (@ListBuckets_page_bound toyEnv tx_abc (mkBucketFilter None None)
                [mkFindOptions 2%Z 0%Z false]) as [_ Hlim].
    + cbn. lia.
    + apply (Hlim (mkFindOptions 2%Z 0%Z false) []); [reflexivity|]. cbn. lia.
Defined.

Lemma ListBuckets_name_filter_witness :
  b_Name (stamped (exBucket 2%N BucketTypeUser "b")) = "b" /\
  exists k v, tx_buckets tx_abc !! k = Some v /\
              toyUnmarshal v = Some (stamped (exBucket 2%N BucketTypeUser "b")).
Proof.
  apply (@ListBuckets_name_filter toyEnv tx_abc "b" [] (stamped (exBucket 2%N BucketTypeUser "b"))).
  vm_compute. left. reflexivity.
Defined.

Lemma ListBuckets_by_org_members_witness :
  b_OrgID (stamped (exBucket 3%N BucketTypeUser "c")) = org1 /\
  (exists id, @GetBucket toyEnv tx_abc id = Ok (stamped (exBucket 3%N BucketTypeUser "c"))) /\
  (exists ik k, bucketIndexKey org1 (b_Name (stamped (exBucket 3%N BucketTypeUser "c"))) = Ok ik /\
                tx_index tx_abc !! ik = Some k).
Proof.
  apply (@ListBuckets_by_org_members toyEnv tx_abc org1 []
           (stamped (exBucket 3%N BucketTypeUser "c"))).
  - exact I1_tx_abc.
  - exact index_canonical_tx_abc.
  - vm_compute. right. right. left. reflexivity.
Defined.

Lemma index_canonical_preserved_witness :
  index_canonical tx_a /\
  index_canonical (fst (@UpdateBucket toyEnv tx_a 1%N (renameTo "b") 9%Z)) /\
  index_canonical (fst (@DeleteBucket toyEnv tx_a 1%N)).
Proof.
  destruct (@index_canonical_preserved toyEnv emptyTx (index_canonical_empty _)) as [Hc _].
  assert (Ha : index_canonical tx_a).
  { apply (Hc (exBucket 1%N BucketTypeUser "a") 5%Z 6%Z tx_a
              (stamped (exBucket 1%N BucketTypeUser "a"))).
    vm_compute. reflexivity. }
  destruct (@index_canonical_preserved toyEnv tx_a Ha) as (_ & Hu & Hd).
  split; [exact Ha|]. split.
  - eapply (Hu 1%N (renameTo "b") 9%Z). vm_compute. reflexivity.
  - apply (Hd 1%N). vm_compute. reflexivity.
Defined.

Lemma healthy_tx_abc : healthy tx_abc.
Proof. intros op. vm_compute. reflexivity. Qed.

Lemma tx_abc_decodes (k v : string) :
  tx_buckets tx_abc !! k = Some v -> exists b, @json_Unmarshal toyEnv v = Some b.
Proof.
  intros Hl. destruct I1_tx_abc as [Hp _].
  destruct (Hp k v Hl) as (b & ik & Hb & _). exists b. exact Hb.
Qed.

Lemma ListBuckets_unfiltered_pages_witness :
  @ListBuckets toyEnv tx_abc (mkBucketFilter None None) [mkFindOptions 2%Z 1%Z true]
  = (firstn 2 (skipn 1 (rev (@storedBuckets toyEnv tx_abc))), None) /\
  List.length (@storedBuckets toyEnv tx_abc) = 3%nat.
Proof.
  destruct (@ListBuckets_unfiltered_pages toyEnv tx_abc (mkFindOptions 2%Z 1%Z true)
              healthy_tx_abc tx_abc_decodes) as (Heq & _ & Hlen).
  - cbn. lia.
  - cbn. lia.
  - split; [exact Heq|]. rewrite Hlen. vm_compute. reflexivity.
Defined.

Lemma ListBuckets_unfiltered_complete_witness :
  In (stamped (exBucket 2%N BucketTypeUser "b"))
     (fst (@ListBuckets toyEnv tx_abc (mkBucketFilter None None)
             [mkFindOptions 0%Z 0%Z false])).
Proof.
  destruct (@ListBuckets_unfiltered_complete toyEnv tx_abc (mkFindOptions 0%Z 0%Z false)
              (stamped (exBucket 2%N BucketTypeUser "b"))
              healthy_tx_abc tx_abc_decodes) as [_ Hin].
  - cbn. lia.
  - cbn. lia.
  - cbn. lia.
  - vm_compute. discriminate.
  - apply Hin. exists "0000000000000002". eexists. split; vm_compute; reflexivity.
Defined.

Lemma VerifyPermissions_first_denied_witness :
  exists (ps1 : list (@Authorizer.Permission AuthorizerExample.exTypes))
         (p : @Authorizer.Permission AuthorizerExample.exTypes)
         (ps2 : list (@Authorizer.Permission AuthorizerExample.exTypes))
         (cause : @Authorizer.AError AuthorizerExample.exTypes),
    ([2; 5; 3]%nat : list (@Authorizer.Permission AuthorizerExample.exTypes))
      = (ps1 ++ p :: ps2)%list /\
    (forall q, In q ps1 ->
       @Authorizer.IsAllowed _ AuthorizerExample.exChecks [2; 3]%nat q = None) /\
    @Authorizer.IsAllowed _ AuthorizerExample.exChecks [2; 3]%nat p = Some cause /\
    @Authorizer.PermissionNotAllowed AuthorizerExample.exTypes 5%nat
      (Authorizer.External (1%nat : @Authorizer.ExtError AuthorizerExample.exTypes))
    = Authorizer.PermissionNotAllowed p cause.
Proof.
  destruct (@VerifyPermissions_first_denied AuthorizerExample.exTypes
              AuthorizerExample.exChecks [2; 3]%nat [2; 5; 3]%nat) as [_ Hden].
  apply Hden. vm_compute. reflexivity.
Defined.

Lemma CreateAuthorization_gate_witness :
  @Authorizer.CreateAuthorization AuthorizerExample.exTypes AuthorizerExample.exChecks
    AuthorizerExample.exService [1; 2]%nat [] (7%N, 1%N, [2]%nat)
  = ([(7%N, 1%N, [2]%nat)], None) /\
  exists err,
    @Authorizer.CreateAuthorization AuthorizerExample.exTypes AuthorizerExample.exChecks
      AuthorizerExample.exService [1; 2]%nat [] (7%N, 1%N, [2; 4]%nat)
    = ([], Some err).
Proof.
  split.
  - destruct (@CreateAuthorization_gate AuthorizerExample.exTypes AuthorizerExample.exChecks
                AuthorizerExample.exService [1; 2]%nat [] (7%N, 1%N, [2]%nat)) as [Hyes _].
    apply Hyes. split; [reflexivity|].
    intros p [<- | []]. reflexivity.
  - destruct (@CreateAuthorization_gate AuthorizerExample.exTypes AuthorizerExample.exChecks
                AuthorizerExample.exService [1; 2]%nat [] (7%N, 1%N, [2; 4]%nat)) as [_ Hno].
    apply Hno. intros [_ Hall].
    specialize (Hall 4%nat (or_intror (or_introl eq_refl))). discriminate Hall.
Defined.

Lemma read_write_gates_witness :
  @Authorizer.DeleteAuthorization AuthorizerExample.exTypes AuthorizerExample.exChecks
    AuthorizerExample.exService [0]%nat [(7%N, 1%N, [])] 7%N
  = ([(7%N, 1%N, [])],
     Some (Authorizer.External (1%nat : @Authorizer.ExtError AuthorizerExample.exTypes))) /\
  @Authorizer.DeleteAuthorization AuthorizerExample.exTypes AuthorizerExample.exChecks
    AuthorizerExample.exService [0; 1]%nat [(7%N, 1%N, [])] 8%N
  = ([(7%N, 1%N, [])],
     Some (Authorizer.External (0%nat : @Authorizer.ExtError AuthorizerExample.exTypes))).
Proof.
  split.
  - destruct (@read_write_gates AuthorizerExample.exTypes AuthorizerExample.exChecks
                AuthorizerExample.exService [0]%nat [(7%N, 1%N, [])] [(7%N, 1%N, [])] 7%N)
      as (_ & Hw & _).
    destruct (Hw (7%N, 1%N, [])
                (Authorizer.External (1%nat : @Authorizer.ExtError AuthorizerExample.exTypes))
                eq_refl eq_refl) as [_ Hd].
    exact Hd.
  - destruct (@read_write_gates AuthorizerExample.exTypes AuthorizerExample.exChecks
                AuthorizerExample.exService [0; 1]%nat [(7%N, 1%N, [])] [(7%N, 1%N, [])] 8%N)
      as (_ & _ & He).
    destruct (He (Authorizer.External (0%nat : @Authorizer.ExtError AuthorizerExample.exTypes))
                eq_refl) as (_ & _ & Hd).
    exact Hd.
Defined.
